(** * imapfs: a filesystem kept in an IMAP mailbox

    Shallow embedding of [imapfs/message.py], [imapfs/imapconnection.py] and
    [imapfs/fs.py], and the properties of the blob buffer, the object store
    and the path resolver that the specification states about them. *)

From Stdlib Require Import ZArith List String Ascii Strings.Byte DecimalString Bool Lia.
Import ListNotations.

Local Open Scope Z_scope.

(** ** Python values used by the sources *)

Module Py.

(** [len(x)] *)
Definition len {A : Type} (l : list A) : Z := Z.of_nat (List.length l).

(** A slice bound, adjusted as CPython does for a slice of step 1:
    a negative bound counts from the end, and every bound is clamped
    into [0, len]. *)
Definition adjust (n i : Z) : Z :=
  if i <? 0 then Z.max (i + n) 0 else Z.min i n.

Definition bound (n dflt : Z) (i : option Z) : Z :=
  match i with
  | None => dflt
  | Some i => adjust n i
  end.

(** [l[lo:hi]]; a missing bound is [None]. *)
Definition slice {A : Type} (l : list A) (lo hi : option Z) : list A :=
  let n := len l in
  let a := bound n 0 lo in
  let b := bound n n hi in
  firstn (Z.to_nat (b - a)) (skipn (Z.to_nat a) l).

(** [l[lo:hi] = v] on a bytearray. *)
Definition set_slice {A : Type} (l : list A) (lo hi : Z) (v : list A) : list A :=
  let n := len l in
  let a := adjust n lo in
  let b := Z.max a (adjust n hi) in
  firstn (Z.to_nat a) l ++ v ++ skipn (Z.to_nat b) l.

(** [x * n] for a sequence of one element: empty when [n <= 0]. *)
Definition times {A : Type} (x : A) (n : Z) : list A := repeat x (Z.to_nat n).

(** Truthiness of a [str | None] value. *)
Definition truthy (s : option string) : bool :=
  match s with
  | None => false
  | Some s => negb (String.eqb s EmptyString)
  end.

(** [s.split(sep)] for a separator of one character. *)
Fixpoint split_acc (sep : ascii) (acc : string) (s : string) : list string :=
  match s with
  | EmptyString => [acc]
  | String c rest =>
      if Ascii.eqb c sep
      then acc :: split_acc sep EmptyString rest
      else split_acc sep (acc ++ String c EmptyString)%string rest
  end.

Definition split (sep : ascii) (s : string) : list string :=
  split_acc sep EmptyString s.

(** [s.rpartition(sep)]: the part before the last separator and the part
    after it; with no separator in [s] the head is empty. *)
Fixpoint rpartition (sep : ascii) (s : string) : option (string * string) :=
  match s with
  | EmptyString => None
  | String c rest =>
      match rpartition sep rest with
      | Some (h, t) => Some (String c h, t)
      | None => if Ascii.eqb c sep then Some (EmptyString, rest) else None
      end
  end.

Definition rpartition_head (sep : ascii) (s : string) : string :=
  match rpartition sep s with
  | Some (h, _) => h
  | None => EmptyString
  end.

Definition rpartition_tail (sep : ascii) (s : string) : string :=
  match rpartition sep s with
  | Some (_, t) => t
  | None => s
  end.

(** A [dict] with string keys: insertion-ordered, one entry per key. *)
Definition dict (V : Type) : Type := list (string * V).

Fixpoint dict_get {V : Type} (k : string) (d : dict V) : option V :=
  match d with
  | [] => None
  | (k', v) :: rest => if String.eqb k' k then Some v else dict_get k rest
  end.

Definition dict_mem {V : Type} (k : string) (d : dict V) : bool :=
  match dict_get k d with
  | Some _ => true
  | None => false
  end.

(** [d[k] = v]: an existing key keeps its place. *)
Fixpoint dict_set {V : Type} (k : string) (v : V) (d : dict V) : dict V :=
  match d with
  | [] => [(k, v)]
  | (k', v') :: rest =>
      if String.eqb k' k then (k', v) :: rest else (k', v') :: dict_set k v rest
  end.

Fixpoint dict_remove {V : Type} (k : string) (d : dict V) : dict V :=
  match d with
  | [] => []
  | (k', v') :: rest =>
      if String.eqb k' k then rest else (k', v') :: dict_remove k rest
  end.

(** Exceptions raised by the modelled code. *)
Inductive exn : Type :=
| IOError
| RuntimeError
| UnboundLocalError
| IndexError
| KeyError
| AttributeError
| TypeError
| BinasciiError
| CorruptContent
| AlreadyExists
| SystemError.

Inductive result (A : Type) : Type :=
| Ok (a : A)
| Raise (e : exn).
Arguments Ok {A} a.
Arguments Raise {A} e.

(** Code running against a mutable state [S]: the state survives a raise. *)
Definition M (S A : Type) : Type := S -> result A * S.

Definition ret {S A : Type} (a : A) : M S A := fun s => (Ok a, s).

Definition raise {S A : Type} (e : exn) : M S A := fun s => (Raise e, s).

Definition bind {S A B : Type} (m : M S A) (k : A -> M S B) : M S B :=
  fun s =>
    match m s with
    | (Ok a, s') => k a s'
    | (Raise e, s') => (Raise e, s')
    end.

Definition gets {S A : Type} (f : S -> A) : M S A := fun s => (Ok (f s), s).

Definition modify {S : Type} (f : S -> S) : M S unit := fun s => (Ok tt, f s).

(** [try: body  except: handler] with a bare [except]. *)
Definition try_except {S A : Type} (body : M S A) (handler : M S A) : M S A :=
  fun s =>
    match body s with
    | (Ok a, s') => (Ok a, s')
    | (Raise _, s') => handler s'
    end.

(** Code of an inner object run from the object that owns it. *)
Definition zoom {S T A : Type} (get : S -> T) (set : T -> S -> S)
           (m : M T A) : M S A :=
  fun s =>
    match m (get s) with
    | (r, t') => (r, set t' s)
    end.

End Py.

Import Py.

Declare Scope py_scope.
Delimit Scope py_scope with py.
Notation "x <- m ;; k" := (bind m (fun x => k))
  (at level 61, m at next level, right associativity) : py_scope.
Notation "m ;;; k" := (bind m (fun _ => k))
  (at level 61, right associativity) : py_scope.

(** Bytes of a [bytes] or [bytearray] object. *)
Definition bytes : Type := list byte.

(** ** The IMAP server behind [imaplib]

    The server is known to the code through its answers only.  An answer may
    depend on every command sent before it, so the connection object is
    modelled by the history of the commands sent (oldest first) and the
    server by the answers it gives after a history. *)

Inductive command : Type :=
| SEARCH (subject : string)
| FETCH (uid : string)
| APPEND (subject : string) (data : bytes)
| STORE_DELETED (uid : string).

(** One element of the list [imaplib] hands back for a FETCH. *)
Inductive fetch_item : Type :=
| NoData
    (** [None]: the server sent no untagged FETCH answer, as for a UID it
        does not have. *)
| Line (text : bytes)
    (** a [bytes] object: a part of the answer that carries no literal. *)
| Literal (decoded : option bytes).
    (** a pair (envelope, literal); [decoded] is what [b64decode] makes of the
        literal, [None] when it is not base64. *)

Class Server : Type := {
  (** [results[1]] of [conn.uid("SEARCH", "SUBJECT", ...)]: a list of byte
      strings, the first one holding the UIDs separated by spaces. *)
  search_response : list command -> string -> list string;
  (** [params[1]] of [conn.uid("FETCH", uid, "(BODY[1])")]: the list of the
      parts of the answer.  [imaplib] gives the list [[None]] when no answer
      arrived. *)
  fetch_response : list command -> string -> list fetch_item;
  (** The UID that the regular expression of [put_message] finds in the
      answer to [conn.append], when the server sends [APPENDUID]. *)
  append_response : list command -> string -> bytes -> option string
}.

(** ** [imapfs/imapconnection.py]: the object store *)

Module IMAPConnection.

Record t : Type := mk {
  conn : list command;
  mailbox : string;
  uid_cache : dict string
}.

Definition with_conn (c : list command) (self : t) : t :=
  mk c (mailbox self) (uid_cache self).
Definition with_uid_cache (d : dict string) (self : t) : t :=
  mk (conn self) (mailbox self) d.

Section Methods.

Context {server : Server}.
Local Open Scope py_scope.

(** The four calls made on [self.conn]. *)
Definition conn_uid_search (subject : string) : M t (list string) :=
  fun self =>
    (Ok (search_response (conn self) subject),
     with_conn (conn self ++ [SEARCH subject]) self).

Definition conn_uid_fetch (uid : string) : M t (list fetch_item) :=
  fun self =>
    (Ok (fetch_response (conn self) uid),
     with_conn (conn self ++ [FETCH uid]) self).

Definition conn_append (subject : string) (data : bytes) : M t (option string) :=
  fun self =>
    (Ok (append_response (conn self) subject data),
     with_conn (conn self ++ [APPEND subject data]) self).

Definition conn_uid_store_deleted (uid : string) : M t unit :=
  modify (fun self => with_conn (conn self ++ [STORE_DELETED uid]) self).

(** [self.uid_cache.pop(subject)] *)
Definition uid_cache_pop (subject : string) : M t string :=
  fun self =>
    match dict_get subject (uid_cache self) with
    | Some uid => (Ok uid, with_uid_cache (dict_remove subject (uid_cache self)) self)
    | None => (Raise KeyError, self)
    end.

(** [self.uid_cache[subject] = uid] *)
Definition uid_cache_set (subject uid : string) : M t unit :=
  modify (fun self => with_uid_cache (dict_set subject uid (uid_cache self)) self).

(** [for subject, s_uid in self.uid_cache.items(): ...] of [get_message].
    The module is Python 3, where [items()] is a view and not a copy.
    The loop runs over the live view of the dict: each step of the
    iterator first compares the size of the dict with the size it had
    when the loop started ([size0]) and raises [RuntimeError] when they
    differ, and only then yields the next item or stops. *)
Fixpoint purge_live (uid : string) (view : list (string * string)) (size0 : nat)
  : M t unit :=
  fun self =>
    if negb (Nat.eqb (List.length (uid_cache self)) size0)
    then (Raise RuntimeError, self)
    else
      match view with
      | [] => (Ok tt, self)
      | (subject, s_uid) :: rest =>
          if String.eqb s_uid uid
          then (uid_cache_pop subject ;;; purge_live uid rest size0) self
          else purge_live uid rest size0 self
      end.

(** [for subject, s_uid in list(self.uid_cache.items()): ...] of
    [delete_message]: the loop runs over a copy. *)
Fixpoint purge_copy (uid : string) (items : list (string * string)) : M t unit :=
  match items with
  | [] => ret tt
  | (subject, s_uid) :: rest =>
      if String.eqb s_uid uid
      then uid_cache_pop subject ;;; purge_copy uid rest
      else purge_copy uid rest
  end.

(** [get_message].  [params[1][0][1]] is the literal of a pair; on [None] the
    subscript raises [TypeError]; on a [bytes] object it is an [int] (or an
    [IndexError] on fewer than two bytes), which [b64decode] refuses with
    [TypeError]. *)
Definition get_message (uid : string) : M t (option bytes) :=
  if String.eqb uid EmptyString then ret None
  else
    params <- conn_uid_fetch uid ;;
    match params with
    | [] =>
        items <- gets uid_cache ;;
        purge_live uid items (List.length items) ;;;
        ret None
    | NoData :: _ => raise TypeError
    | Line text :: _ =>
        if len text <? 2 then raise IndexError else raise TypeError
    | Literal None :: _ => raise BinasciiError
    | Literal (Some data) :: _ => ret (Some data)
    end.

Definition put_message (subject : string) (data : bytes) : M t unit :=
  cache <- gets uid_cache ;;
  (if dict_mem subject cache
   then uid_cache_pop subject ;;; ret tt
   else ret tt) ;;;
  new_uid <- conn_append subject data ;;
  match new_uid with
  | Some new_uid => uid_cache_set subject new_uid
  | None => ret tt
  end.

Definition delete_message (uid : string) : M t unit :=
  conn_uid_store_deleted uid ;;;
  items <- gets uid_cache ;;
  purge_copy uid items.

Definition search_by_subject (subject : string) : M t (option (list string)) :=
  results <- conn_uid_search subject ;;
  match results with
  | [] => ret None
  | first :: _ =>
      let uids := split " " first in
      match uids with
      | [EmptyString] => ret None
      | _ => ret (Some uids)
      end
  end.

Definition get_uid_by_subject (subject : string) : M t (option string) :=
  cache <- gets uid_cache ;;
  match dict_get subject cache with
  | Some uid => ret (Some uid)
  | None =>
      results <- search_by_subject subject ;;
      match results with
      | None | Some [] => ret None
      | Some (u :: us) =>
          let last_uid := last us u in
          uid_cache_set subject last_uid ;;;
          ret (Some last_uid)
      end
  end.

End Methods.

End IMAPConnection.

(** ** [imapfs/message.py]: the in-memory blob *)

Module Message.

(** [os.SEEK_SET], [os.SEEK_CUR], [os.SEEK_END] *)
Definition SEEK_SET : Z := 0.
Definition SEEK_CUR : Z := 1.
Definition SEEK_END : Z := 2.

(** The byte [truncate] pads with: [b"."]. *)
Definition FILLER : byte := "."%byte.

(** The attributes set by [__init__].  The [conn] attribute is a reference
    to the one connection of the session; it lives in the state the
    methods run against, not in the record. *)
Record t : Type := mk {
  name : string;
  data : bytes;
  dirty : bool;
  pos : Z;
  compress : bool
}.

Definition with_data (d : bytes) (self : t) : t :=
  mk (name self) d (dirty self) (pos self) (compress self).
Definition with_dirty (b : bool) (self : t) : t :=
  mk (name self) (data self) b (pos self) (compress self).
Definition with_pos (p : Z) (self : t) : t :=
  mk (name self) (data self) (dirty self) p (compress self).
Definition with_name (n : string) (self : t) : t :=
  mk n (data self) (dirty self) (pos self) (compress self).

Definition init (name : string) (data : bytes) : t :=
  mk name data false 0 false.

Definition seek (off : Z) (whence : Z) (self : t) : t :=
  if whence =? SEEK_SET then with_pos off self
  else if whence =? SEEK_CUR then with_pos (pos self + off) self
  else if whence =? SEEK_END then with_pos (len (data self) - off) self
  else self.

Definition read (size : option Z) (self : t) : bytes * t :=
  match size with
  | None =>
      let buf := slice (data self) (Some (pos self)) None in
      (buf, with_pos (pos self + len buf) self)
  | Some size =>
      let size :=
        if len (data self) <? size + pos self
        then len (data self) - pos self
        else size in
      let buf := slice (data self) (Some (pos self)) (Some (pos self + size)) in
      (buf, with_pos (pos self + size) self)
  end.

Definition truncate (size : option Z) (self : t) : t :=
  match size with
  | None => self
  | Some size =>
      let self1 :=
        if size <? len (data self) then
          let self' := with_data (slice (data self) None (Some size)) self in
          if size <? pos self' then with_pos size self' else self'
        else
          with_data (data self ++ times FILLER (size - len (data self))) self in
      with_dirty true self1
  end.

Definition write (buf : bytes) (self : t) : t :=
  let self1 :=
    if len (data self) <? pos self + len buf
    then truncate (Some (pos self + len buf)) self
    else self in
  let self2 :=
    with_data (set_slice (data self1) (pos self1) (pos self1 + len buf) buf) self1 in
  with_dirty true (with_pos (pos self2 + len buf) self2).

Section Store.

Context {server : Server}.
Local Open Scope py_scope.

Definition flush (self : t) : M IMAPConnection.t t :=
  if dirty self then
    old_uid <- IMAPConnection.get_uid_by_subject (name self) ;;
    IMAPConnection.put_message (name self) (data self) ;;;
    (match old_uid with
     | Some uid =>
         if truthy old_uid then IMAPConnection.delete_message uid else ret tt
     | None => ret tt
     end) ;;;
    ret (with_dirty false self)
  else ret self.

Definition close (self : t) : M IMAPConnection.t t := flush self.

(** [create]: [uuid] is the value of [str(uuid.uuid4())]. *)
Definition create (uuid : string) : t := with_dirty true (init uuid []).

Definition open (name : string) : M IMAPConnection.t t :=
  uid <- IMAPConnection.get_uid_by_subject name ;;
  match uid with
  | None => raise IOError
  | Some u =>
      if negb (truthy uid) then raise IOError
      else
        data <- IMAPConnection.get_message u ;;
        match data with
        | None => raise IOError
        | Some data => ret (init name data)
        end
  end.

Definition unlink (name : string) : M IMAPConnection.t unit :=
  uid <- IMAPConnection.get_uid_by_subject name ;;
  match uid with
  | None => ret tt
  | Some u =>
      if negb (truthy uid) then ret tt
      else IMAPConnection.delete_message u
  end.

End Store.

End Message.

(** The commands one lookup of the current version of [name] sends. *)
Definition lookup_commands (name : string) (c : IMAPConnection.t) : list command :=
  if dict_mem name (IMAPConnection.uid_cache c) then [] else [SEARCH name].

(** The commands that retire the old version, when there is one. *)
Definition retire_commands (old_uid : option string) : list command :=
  match old_uid with
  | Some uid => if truthy old_uid then [STORE_DELETED uid] else []
  | None => []
  end.

(** ** The node classes used by [imapfs/fs.py] *)

(** What the sources leave to their surroundings: the layout of a child list
    inside a directory blob, and the values [uuid.uuid4()] draws. *)
Class Surroundings : Type := {
  encode_children : dict string -> bytes;
  decode_children : bytes -> dict string;
  uuid4_draw : nat -> string
}.

Module File.

(** Modelled from the spec: [imapfs/file.py] is not among the sources.  A
    File node owns exactly one Blob. *)
Record t : Type := mk { message : Message.t }.

(** Modelled from the spec: [imapfs/file.py] is not among the sources.
    [File.create]: "allocates a new Name, an empty Blob marked dirty with
    content tag 'f' + empty payload". *)
Definition create (uuid : string) : t :=
  mk (Message.with_data ["f"%byte] (Message.create uuid)).

(** Modelled from the spec: [File.fromBlob] "requires first content byte ==
    'f'", and a decode failure is a condition of its own. *)
Definition from_message (msg : Message.t) : result t :=
  match Message.data msg with
  | b :: _ => if Byte.eqb b "f" then Ok (mk msg) else Raise CorruptContent
  | [] => Raise CorruptContent
  end.

(** Modelled from the spec: the file "exposes the remaining bytes as file
    content", with the byte-range operations "delegating ... directly to
    the Blob, offset by the 1-byte header". *)
Definition content (self : t) : bytes := skipn 1 (Message.data (message self)).

(** Modelled from the spec: "size = actual content length". *)
Definition size (self : t) : Z := len (content self).

(** Modelled from the spec: a seek to an offset of the content is a seek of
    the Blob, one byte further for the header. *)
Definition seek (off : Z) (self : t) : t :=
  mk (Message.seek (off + 1) Message.SEEK_SET (message self)).

(** Modelled from the spec: a read of the content is a read of the Blob. *)
Definition read (size : option Z) (self : t) : bytes * t :=
  let (buf, msg) := Message.read size (message self) in (buf, mk msg).

Section Store.

Context {server : Server}.

(** Modelled from the spec: flushing a file flushes its Blob. *)
Definition flush (self : t) : M IMAPConnection.t t :=
  bind (Message.flush (message self)) (fun msg => ret (mk msg)).

(** Modelled from the spec: closing a file closes, that is flushes, its
    Blob. *)
Definition close (self : t) : M IMAPConnection.t t :=
  bind (Message.close (message self)) (fun msg => ret (mk msg)).

End Store.

End File.

Module Directory.

(** Modelled from the spec: [imapfs/directory.py] is not among the sources.
    A Directory node owns one Blob and holds the decoded mapping from child
    Name to child display-name, which [readdir] reads as [children]. *)
Record t : Type := mk {
  message : Message.t;
  children : dict string
}.

(** The three bytes [check_filesystem] expects at the head of a directory
    blob: the tag and the marker. *)
Definition HEADER : bytes := ["d"; "013"; "010"]%byte.

Section Methods.

Context {env : Surroundings}.

(** Modelled from the spec: [imapfs/directory.py] is not among the
    sources.  A directory blob is "a 1-byte type tag, a fixed marker ...
    followed by [the] mapping from child Name to child display-name". *)
Definition encode (children : dict string) : bytes :=
  HEADER ++ encode_children children.

(** Modelled from the spec: [Directory.create]: "new Name, Blob content =
    'd' + marker + empty child list, dirty". *)
Definition create (uuid : string) : t :=
  mk (Message.with_data (encode []) (Message.create uuid)) [].

(** Modelled from the spec: [Directory.fromBlob] "requires first byte ==
    'd'; decodes the child-list region into the in-memory child
    mapping"; "bad tag byte, truncated marker" are decode failures. *)
Definition from_message (msg : Message.t) : result t :=
  match Message.data msg with
  | b :: _ =>
      if Byte.eqb b "d" && (3 <=? len (Message.data msg))
      then Ok (mk msg (decode_children (skipn 3 (Message.data msg))))
      else Raise CorruptContent
  | [] => Raise CorruptContent
  end.

(** Modelled from the spec: [getChildByDisplayName(displayName) -> Name |
    None]; the children map a child Name to its display-name. *)
Fixpoint find_name (display : string) (children : dict string) : option string :=
  match children with
  | [] => None
  | (child_key, child_name) :: rest =>
      if String.eqb child_name display then Some child_key
      else find_name display rest
  end.

(** Modelled from the spec: [getChildByDisplayName] on the child mapping of
    the directory. *)
Definition get_child_by_name (display : string) (self : t) : option string :=
  find_name display (children self).

(** Modelled from the spec: [addChild] "fails with AlreadyExists if
    displayName already present; otherwise inserts and marks owning Blob
    dirty"; the directory "re-encodes on every mutation back into the
    Blob before flush". *)
Definition add_child (child_key display : string) (self : t) : result t :=
  match find_name display (children self) with
  | Some _ => Raise AlreadyExists
  | None =>
      let children' := dict_set child_key display (children self) in
      Ok (mk (Message.with_dirty true
                (Message.with_data (encode children') (message self)))
             children')
  end.

Context {server : Server}.

(** Modelled from the spec: flushing a directory flushes its Blob, which
    every mutation has re-encoded already. *)
Definition flush (self : t) : M IMAPConnection.t t :=
  bind (Message.flush (message self)) (fun msg => ret (mk msg (children self))).

(** Modelled from the spec: closing a directory closes, that is flushes, its
    Blob. *)
Definition close (self : t) : M IMAPConnection.t t :=
  bind (Message.close (message self)) (fun msg => ret (mk msg (children self))).

End Methods.

End Directory.

(** An object of one of the two node classes. *)
Inductive node : Type :=
| AFile (f : File.t)
| ADirectory (d : Directory.t).

(** What a filesystem call hands back to the protocol bridge. *)
Inductive reply : Type :=
| RNone
| RInt (n : Z)
| RStr (s : bytes).

(** ** [imapfs/fs.py]: node cache, resolver and dispatcher *)

Module IMAPFS.

Definition ROOT : string := "00000000-0000-0000-0000-000000000000".

(** [fuse.ENOENT], [fuse.EEXIST], [fuse.EISDIR] *)
Definition ENOENT : Z := 2.
Definition EEXIST : Z := 17.
Definition EISDIR : Z := 21.

(** The session.  Node objects are shared between [open_nodes] and the
    local variables of the methods, and are changed in place, so they live
    in a store of objects ([objects], never shrinking) and are named by
    their index in it; [open_nodes] maps a Name to such a reference.
    [uuid_calls] counts the draws of [uuid.uuid4()]. *)
Record t : Type := mk {
  imap : IMAPConnection.t;
  open_nodes : dict nat;
  objects : list node;
  uuid_calls : nat
}.

Definition with_imap (c : IMAPConnection.t) (self : t) : t :=
  mk c (open_nodes self) (objects self) (uuid_calls self).
Definition with_open_nodes (d : dict nat) (self : t) : t :=
  mk (imap self) d (objects self) (uuid_calls self).
Definition with_objects (o : list node) (self : t) : t :=
  mk (imap self) (open_nodes self) o (uuid_calls self).
Definition with_uuid_calls (n : nat) (self : t) : t :=
  mk (imap self) (open_nodes self) (objects self) n.

Fixpoint list_set {A : Type} (i : nat) (x : A) (l : list A) : list A :=
  match l, i with
  | [], _ => []
  | _ :: rest, O => x :: rest
  | y :: rest, S i => y :: list_set i x rest
  end.

(** [node.message] *)
Definition message_of (n : node) : Message.t :=
  match n with
  | AFile f => File.message f
  | ADirectory d => Directory.message d
  end.

Section Methods.

Context {server : Server} {env : Surroundings}.
Local Open Scope py_scope.

Definition new_object (n : node) : M t nat :=
  fun self =>
    (Ok (List.length (objects self)), with_objects (objects self ++ [n]) self).

(** The object behind a reference.  References are made by [new_object]
    only and [objects] never shrinks, so the last branch is not taken. *)
Definition object (r : nat) : M t node :=
  fun self =>
    match nth_error (objects self) r with
    | Some n => (Ok n, self)
    | None => (Raise SystemError, self)
    end.

Definition set_object (r : nat) (n : node) : M t unit :=
  modify (fun self => with_objects (list_set r n (objects self)) self).

Definition on_imap {A : Type} (m : M IMAPConnection.t A) : M t A :=
  zoom imap with_imap m.

Definition of_result {A : Type} (r : result A) : M t A := fun self => (r, self).

Definition uuid4 : M t string :=
  fun self =>
    (Ok (uuid4_draw (uuid_calls self)), with_uuid_calls (S (uuid_calls self)) self).

(** [open_node].  [obj] stays unbound when the tag is neither 'f' nor
    'd'; the assignment that follows then raises. *)
Definition open_node (name : string) : M t (option nat) :=
  cache <- gets open_nodes ;;
  match dict_get name cache with
  | Some obj => ret (Some obj)
  | None =>
      msg <- try_except
               (msg <- on_imap (Message.open name) ;; ret (Some msg))
               (ret None) ;;
      match msg with
      | None => ret None
      | Some msg =>
          type_code <- match Message.data msg with
                       | b :: _ => ret b
                       | [] => raise IndexError
                       end ;;
          obj <- (if Byte.eqb type_code "f" then
                    f <- of_result (File.from_message msg) ;;
                    obj <- new_object (AFile f) ;;
                    ret (Some obj)
                  else if Byte.eqb type_code "d" then
                    d <- of_result (Directory.from_message msg) ;;
                    obj <- new_object (ADirectory d) ;;
                    ret (Some obj)
                  else ret None) ;;
          match obj with
          | None => raise UnboundLocalError
          | Some obj =>
              modify (fun self =>
                        with_open_nodes (dict_set name obj (open_nodes self)) self) ;;;
              ret (Some obj)
          end
      end
  end.

(** [close_node]; closing a node flushes its blob. *)
Definition close_node (r : nat) : M t unit :=
  n <- object r ;;
  n' <- match n with
        | AFile f => f' <- on_imap (File.close f) ;; ret (AFile f')
        | ADirectory d => d' <- on_imap (Directory.close d) ;; ret (ADirectory d')
        end ;;
  set_object r n' ;;;
  cache <- gets open_nodes ;;
  if dict_mem (Message.name (message_of n')) cache
  then modify (fun self =>
                 with_open_nodes
                   (dict_remove (Message.name (message_of n')) (open_nodes self)) self)
  else ret tt.

(** [check_filesystem]: [Some true] is [True], [Some false] is [False],
    [None] is [None].  [str(...)] of the three leading bytes is read as in
    Python 2, the language of [fs.py]: the bytes themselves. *)
Definition check_filesystem : M t (option bool) :=
  root <- open_node ROOT ;;
  match root with
  | None => ret (Some false)
  | Some r =>
      n <- object r ;;
      match n with
      | AFile _ => ret (Some false)
      | ADirectory d =>
          let data := slice (Message.data (Directory.message d)) (Some 0) (Some 3) in
          if negb (if list_eq_dec Byte.byte_eq_dec data Directory.HEADER
                   then true else false)
          then ret (Some false)
          else ret (Some true)
      end
  end.

Definition init_filesystem : M t unit :=
  u <- uuid4 ;;
  let root := Directory.create u in
  let root := Directory.mk (Message.with_name ROOT (Directory.message root))
                           (Directory.children root) in
  on_imap (Directory.close root) ;;;
  ret tt.

(** The loop of [get_node_by_path] over the parts of the path.  A [break]
    leaves the loop with the node reached so far, which is what the
    method then returns. *)
Fixpoint walk (parts : list string) (current_node : option nat) : M t (option nat) :=
  match parts with
  | [] => ret current_node
  | part :: rest =>
      if String.eqb part EmptyString then walk rest current_node
      else
        match current_node with
        | None => ret current_node
        | Some r =>
            n <- object r ;;
            match n with
            | AFile _ => ret current_node
            | ADirectory d =>
                match Directory.get_child_by_name part d with
                | None => ret None
                | Some child_key =>
                    if String.eqb child_key EmptyString then ret None
                    else
                      child_node <- open_node child_key ;;
                      match child_node with
                      | None => ret None
                      | Some _ => walk rest child_node
                      end
                end
            end
        end
  end.

Definition get_node_by_path (path : string) : M t (option nat) :=
  if String.eqb path "/" then open_node ROOT
  else
    current_node <- open_node ROOT ;;
    walk (split "/" path) current_node.

Definition get_path_parent (path : string) : string := rpartition_head "/" path.

Definition get_path_filename (path : string) : string := rpartition_tail "/" path.

(** [parent.add_child(...)] on the object [r]. *)
Definition add_child (r : nat) (child_key display : string) : M t unit :=
  n <- object r ;;
  match n with
  | AFile _ => raise AttributeError
  | ADirectory d =>
      d' <- of_result (Directory.add_child child_key display d) ;;
      set_object r (ADirectory d')
  end.

(** [node.flush()] on the object [r]. *)
Definition flush (r : nat) : M t unit :=
  n <- object r ;;
  n' <- match n with
        | AFile f => f' <- on_imap (File.flush f) ;; ret (AFile f')
        | ADirectory d => d' <- on_imap (Directory.flush d) ;; ret (ADirectory d')
        end ;;
  set_object r n'.

Definition mkdir (path : string) (mode : Z) : M t reply :=
  node <- get_node_by_path path ;;
  match node with
  | Some _ => ret (RInt (- EEXIST))
  | None =>
      parent <- get_node_by_path (get_path_parent path) ;;
      match parent with
      | None => ret (RInt (- EEXIST))
      | Some parent =>
          u <- uuid4 ;;
          child <- new_object (ADirectory (Directory.create u)) ;;
          modify (fun self => with_open_nodes (dict_set u child (open_nodes self)) self) ;;;
          add_child parent u (get_path_filename path) ;;;
          flush child ;;;
          flush parent ;;;
          ret RNone
      end
  end.

Definition mknod (path : string) (mode dev : Z) : M t reply :=
  node <- get_node_by_path path ;;
  match node with
  | Some _ => ret (RInt (- EEXIST))
  | None =>
      parent <- get_node_by_path (get_path_parent path) ;;
      match parent with
      | None => ret (RInt (- ENOENT))
      | Some parent =>
          u <- uuid4 ;;
          node <- new_object (AFile (File.create u)) ;;
          modify (fun self => with_open_nodes (dict_set u node (open_nodes self)) self) ;;;
          add_child parent u (get_path_filename path) ;;;
          close_node node ;;;
          flush parent ;;;
          ret RNone
      end
  end.

Definition read (path : string) (size offset : Z) : M t reply :=
  node <- get_node_by_path path ;;
  match node with
  | None => ret (RInt (- ENOENT))
  | Some r =>
      n <- object r ;;
      match n with
      | ADirectory _ => ret (RInt (- EISDIR))
      | AFile f =>
          let (data, f') := File.read (Some size) (File.seek offset f) in
          set_object r (AFile f') ;;;
          ret (RStr data)
      end
  end.

End Methods.

End IMAPFS.

(** ** A mailbox and a child-list layout to run the code against *)

Module Mailbox.

(** A server that numbers the appended messages 1, 2, ..., drops a message
    once it is flagged deleted, and reports the UID of every append. *)
Record letter : Type := mk { uid : nat; subject : string; body : bytes }.

Definition uid_string (n : nat) : string :=
  NilEmpty.string_of_uint (Nat.to_uint n).

Definition step (st : nat * list letter) (c : command) : nat * list letter :=
  match c with
  | APPEND s d => (S (fst st), snd st ++ [mk (fst st) s d])
  | STORE_DELETED u =>
      (fst st, filter (fun l => negb (String.eqb (uid_string (uid l)) u)) (snd st))
  | SEARCH _ | FETCH _ => st
  end.

Definition replay (history : list command) : nat * list letter :=
  fold_left step history (1%nat, []).

Definition search (history : list command) (s : string) : list string :=
  [String.concat " "
     (map (fun l => uid_string (uid l))
          (filter (fun l => String.eqb (subject l) s) (snd (replay history))))].

(** The answer to a FETCH as [imaplib] hands it back: the pair with the
    literal and the closing line for a message the mailbox holds, the list
    [[None]] for a UID it does not hold. *)
Definition fetch (history : list command) (u : string) : list fetch_item :=
  match filter (fun l => String.eqb (uid_string (uid l)) u) (snd (replay history)) with
  | l :: _ => [Literal (Some (body l)); Line [")"%byte]]
  | [] => [NoData]
  end.

Definition server : Server := {|
  search_response := search;
  fetch_response := fetch;
  append_response := fun history _ _ => Some (uid_string (fst (replay history)))
|}.

(** One line per child: Name, tab, display-name, CR LF. *)
Definition encode_line (entry : string * string) : bytes :=
  list_byte_of_string (fst entry ++ String "009" (snd entry ++ String "013" (String "010" EmptyString))).

Definition decode_line (line : string) : dict string :=
  match split "009" line with
  | [key; display] =>
      [(key, substring 0 (String.length display - 1) display)]
  | _ => []
  end.

Definition surroundings : Surroundings := {|
  encode_children := fun children => List.concat (map encode_line children);
  decode_children := fun data =>
    List.concat (map decode_line (split "010" (string_of_list_byte data)));
  uuid4_draw := fun n => ("uuid-" ++ uid_string n)%string
|}.

End Mailbox.

Module Scenario.

Definition FILE_NAME : string := "11111111-1111-1111-1111-111111111111".
Definition ODD_NAME : string := "22222222-2222-2222-2222-222222222222".

(** The root directory lists a file [f] and an entry [g]. *)
Definition root_children : dict string := [(FILE_NAME, "f"); (ODD_NAME, "g")]%string.

Definition file_blob : bytes := ["f"; "h"; "i"]%byte.

(** The blob behind [g] starts with a tag that is neither 'f' nor 'd'. *)
Definition odd_blob : bytes := ["x"; "y"]%byte.

(** The commands of an earlier session that left this mailbox. *)
Definition history : list command :=
  [APPEND IMAPFS.ROOT (Directory.encode (env := Mailbox.surroundings) root_children);
   APPEND FILE_NAME file_blob;
   APPEND ODD_NAME odd_blob].

(** A session that has just started on that mailbox. *)
Definition session : IMAPFS.t :=
  IMAPFS.mk (IMAPConnection.mk history "INBOX" []) [] [] 0.

(** A session that has just started on an empty mailbox. *)
Definition blank_session : IMAPFS.t :=
  IMAPFS.mk (IMAPConnection.mk [] "INBOX" []) [] [] 0.

(** A connection to an empty mailbox whose cache still maps the name "n"
    to the UID of a version that is gone. *)
Definition stale_connection : IMAPConnection.t :=
  IMAPConnection.mk [] "INBOX" [("n", "5")]%string.

(** A blob of four bytes, cursor at its end. *)
Definition blob4 : Message.t :=
  Message.mk "n" ["a"; "b"; "c"; "d"]%byte false 4 false.

Definition get_node_by_path := IMAPFS.get_node_by_path
  (server := Mailbox.server) (env := Mailbox.surroundings).
Definition open_node := IMAPFS.open_node
  (server := Mailbox.server) (env := Mailbox.surroundings).
Definition check_filesystem := IMAPFS.check_filesystem
  (server := Mailbox.server) (env := Mailbox.surroundings).
Definition mkdir := IMAPFS.mkdir
  (server := Mailbox.server) (env := Mailbox.surroundings).
Definition mknod := IMAPFS.mknod
  (server := Mailbox.server) (env := Mailbox.surroundings).
Definition read := IMAPFS.read
  (server := Mailbox.server) (env := Mailbox.surroundings).

End Scenario.

(** ** Vocabulary of the further properties *)

(** What is said of [read] for every cursor position: a read with a length
    returns the bytes from the cursor to the end of the data, which is what
    a read with no length returns, cut down to the length asked for. *)
Definition read_clamps_at_every_cursor : Prop :=
  forall (m : Message.t) (size : Z),
    0 <= size ->
    fst (Message.read (Some size) m)
      = firstn (Z.to_nat size) (fst (Message.read None m)).

(** A dict holds one entry per key. *)
Definition unique_keys {V : Type} (d : dict V) : Prop := NoDup (map fst d).

(** Some name of the cache is mapped to [uid]. *)
Definition holds_uid (uid : string) (d : dict string) : bool :=
  existsb (fun entry => String.eqb (snd entry) uid) d.

(** The cache without the entries mapped to [uid]. *)
Definition without_uid (uid : string) (d : dict string) : dict string :=
  filter (fun entry => negb (String.eqb (snd entry) uid)) d.

(** The character [c] occurs in [s]. *)
Fixpoint has_char (c : ascii) (s : string) : bool :=
  match s with
  | EmptyString => false
  | String c' rest => Ascii.eqb c' c || has_char c rest
  end.

(** A part of a path that [get_node_by_path] does not skip. *)
Definition nonblank (part : string) : bool := negb (String.eqb part EmptyString).

(** A connection to a mailbox in which two versions are stored under the
    name "n", the later one with UID 2. *)
Definition twice_stored : IMAPConnection.t :=
  IMAPConnection.mk [APPEND "n" ["o"; "l"; "d"]%byte; APPEND "n" ["n"; "e"; "w"]%byte]
                    "INBOX" [].

(** A connection with one cached name, to a mailbox that holds its version. *)
Definition cached_connection : IMAPConnection.t :=
  IMAPConnection.mk [APPEND "n" ["o"; "l"; "d"]%byte] "INBOX" [("n", "1")]%string.

(** ** Properties of the blob buffer *)

Section BlobBuffer.

Import Message.

Lemma adjust_inside (n i : Z) : 0 <= i <= n -> adjust n i = i.
Proof. unfold adjust. intros H. destruct (Z.ltb_spec i 0); lia. Qed.

Lemma adjust_beyond (n i : Z) : 0 <= n <= i -> adjust n i = n.
Proof. unfold adjust. intros H. destruct (Z.ltb_spec i 0); lia. Qed.

Lemma slice_prefix (l : bytes) (k : Z) :
  0 <= k -> slice l None (Some k) = firstn (Z.to_nat k) l.
Proof.
  intros Hk. unfold slice, bound, adjust, len.
  destruct (Z.ltb_spec k 0); [lia|].
  rewrite Z.sub_0_r. simpl skipn.
  destruct (Z.le_ge_cases k (Z.of_nat (List.length l))).
  - now rewrite Z.min_l.
  - rewrite Z.min_r by lia. rewrite Nat2Z.id.
    rewrite !firstn_all2; trivial; lia.
Qed.

Lemma slice_from (l : bytes) (p : Z) :
  0 <= p -> slice l (Some p) None = skipn (Z.to_nat p) l.
Proof.
  intros Hp. unfold slice, bound, adjust, len.
  destruct (Z.ltb_spec p 0); [lia|].
  destruct (Z.le_ge_cases p (Z.of_nat (List.length l))).
  - rewrite Z.min_l by lia. apply firstn_all2. rewrite length_skipn. lia.
  - rewrite Z.min_r by lia. rewrite Nat2Z.id.
    rewrite !skipn_all2; trivial; try lia. now rewrite firstn_nil.
Qed.

Lemma slice_window (l : bytes) (p k : Z) :
  0 <= p -> 0 <= k ->
  slice l (Some p) (Some (p + k)) = firstn (Z.to_nat k) (skipn (Z.to_nat p) l).
Proof.
  intros Hp Hk. unfold slice, bound, adjust, len.
  destruct (Z.ltb_spec p 0); [lia|].
  destruct (Z.ltb_spec (p + k) 0); [lia|].
  set (n := Z.of_nat (List.length l)).
  destruct (Z.le_ge_cases p n) as [Hpn|Hpn].
  - rewrite (Z.min_l p n) by lia.
    destruct (Z.le_ge_cases (p + k) n).
    + rewrite Z.min_l by lia. f_equal. lia.
    + rewrite Z.min_r by lia.
      rewrite !firstn_all2; trivial; rewrite length_skipn; lia.
  - rewrite (Z.min_r p n) by lia. rewrite (Z.min_r (p + k) n) by lia.
    rewrite Z.sub_diag. simpl firstn.
    rewrite (skipn_all2 (n := Z.to_nat p)) by lia. now rewrite firstn_nil.
Qed.

Lemma slice_empty_beyond (l : bytes) (p q : Z) :
  len l <= p -> len l <= q -> slice l (Some p) (Some q) = [].
Proof.
  intros Hp Hq. unfold slice, bound.
  assert (0 <= len l) by (unfold len; lia).
  rewrite !adjust_beyond by lia. now rewrite Z.sub_diag.
Qed.

Lemma len_nonneg (l : bytes) : 0 <= len l.
Proof. unfold len. lia. Qed.

Lemma len_app (l1 l2 : bytes) : len (l1 ++ l2) = len l1 + len l2.
Proof. unfold len. rewrite length_app. lia. Qed.

Lemma len_times (b : byte) (k : Z) : 0 <= k -> len (times b k) = k.
Proof. intros Hk. unfold len, times. rewrite repeat_length. lia. Qed.

Lemma slice_segment (l : bytes) (lo hi : option Z) :
  exists pre post, l = pre ++ slice l lo hi ++ post.
Proof.
  unfold slice.
  exists (firstn (Z.to_nat (bound (len l) 0 lo)) l).
  exists (skipn (Z.to_nat (bound (len l) (len l) hi - bound (len l) 0 lo))
                (skipn (Z.to_nat (bound (len l) 0 lo)) l)).
  now rewrite !firstn_skipn.
Qed.

Lemma slice_to_end (l : bytes) (p : Z) :
  slice l (Some p) None = skipn (Z.to_nat (adjust (len l) p)) l.
Proof.
  unfold slice, bound. apply firstn_all2. rewrite length_skipn.
  unfold adjust, len. destruct (Z.ltb_spec p 0); lia.
Qed.

Lemma read_sized_from_cursor (m : Message.t) (size : Z) :
  0 <= pos m -> 0 <= size ->
  fst (read (Some size) m)
    = firstn (Z.to_nat size) (skipn (Z.to_nat (pos m)) (data m)).
Proof.
  intros Hpos Hsize. unfold read. cbn [fst].
  destruct (Z.ltb_spec (len (data m)) (size + pos m)) as [Hover|Hfit].
  - destruct (Z.le_gt_cases (pos m) (len (data m))) as [Hin|Hout].
    + rewrite slice_window by lia.
      rewrite !firstn_all2; trivial; rewrite length_skipn; unfold len in *; lia.
    + replace (pos m + (len (data m) - pos m)) with (len (data m)) by lia.
      rewrite slice_empty_beyond by lia.
      rewrite skipn_all2 by (unfold len in *; lia). now rewrite firstn_nil.
  - now rewrite slice_window.
Qed.

Lemma read_sized_length (m : Message.t) (size : Z) :
  0 <= size -> len (fst (read (Some size) m)) <= size.
Proof.
  intros Hsize. unfold read. cbn [fst].
  destruct (Z.ltb_spec (len (data m)) (size + pos m));
    unfold slice, bound, adjust, len in *;
    rewrite length_firstn, length_skipn;
    repeat match goal with
           | |- context [?a <? ?b] => destruct (Z.ltb_spec a b)
           end; lia.
Qed.

(** C7. For a blob of length L: truncating to M < L keeps exactly the first
    M bytes and leaves the cursor at most at M (it becomes min(cursor, M));
    truncating to L+K with K >= 0 keeps the first L bytes and makes the K
    new trailing bytes the filler byte, which is the printable "." and not
    zero; both set the dirty flag. *)
Theorem truncate_shrink_and_grow (m : Message.t) (M K : Z) :
  0 <= M -> 0 <= K ->
  (M < len (data m) ->
     data (truncate (Some M) m) = firstn (Z.to_nat M) (data m) /\
     len (data (truncate (Some M) m)) = M /\
     pos (truncate (Some M) m) = Z.min (pos m) M /\
     pos (truncate (Some M) m) <= M /\
     dirty (truncate (Some M) m) = true) /\
  (data (truncate (Some (len (data m) + K)) m)
     = data m ++ repeat FILLER (Z.to_nat K) /\
   firstn (Z.to_nat (len (data m))) (data (truncate (Some (len (data m) + K)) m))
     = data m /\
   len (data (truncate (Some (len (data m) + K)) m)) = len (data m) + K /\
   pos (truncate (Some (len (data m) + K)) m) = pos m /\
   dirty (truncate (Some (len (data m) + K)) m) = true) /\
  FILLER = "."%byte /\ FILLER <> "000"%byte /\
  (32 <= Byte.to_N FILLER <= 126)%N.
Proof.
  intros HM HK. split; [|split].
  - intros Hlt. unfold truncate.
    destruct (Z.ltb_spec M (len (data m))) as [_|]; [|lia].
    assert (Hd : slice (data m) None (Some M) = firstn (Z.to_nat M) (data m))
      by now apply slice_prefix.
    assert (Hlen : len (firstn (Z.to_nat M) (data m)) = M).
    { unfold len in *. rewrite length_firstn. lia. }
    cbn [pos with_data].
    destruct (Z.ltb_spec M (pos m)); cbn; rewrite Hd, Hlen;
      repeat split; trivial; lia.
  - unfold truncate.
    destruct (Z.ltb_spec (len (data m) + K) (len (data m))); [lia|].
    cbn. replace (len (data m) + K - len (data m)) with K by lia.
    unfold times. repeat split.
    + unfold len. rewrite Nat2Z.id. rewrite firstn_app, Nat.sub_diag.
      simpl. rewrite app_nil_r. apply firstn_all.
    + rewrite len_app. fold (times FILLER K). now rewrite len_times.
  - repeat split; try discriminate; unfold FILLER; simpl; lia.
Qed.

Lemma truncate_shrink_and_grow_witness :
  data (truncate (Some 2) Scenario.blob4) = ["a"; "b"]%byte /\
  pos (truncate (Some 2) Scenario.blob4) <= 2 /\
  data (truncate (Some (4 + 3)) Scenario.blob4) = ["a"; "b"; "c"; "d"; "."; "."; "."]%byte.
Proof.
  destruct (truncate_shrink_and_grow Scenario.blob4 2 3) as [Hs [Hg _]]; try lia.
  destruct Hs as [H1 [_ [_ [H2 _]]]]; [reflexivity|].
  destruct Hg as [H3 _].
  split; [exact H1 | split; [exact H2 | exact H3]].
Defined.

(** C9. [seek(off, SEEK_END)] puts the cursor at L - off, which is 2*off
    away from the POSIX position L + off; no mode checks bounds: every
    integer, negative or beyond the end, is a cursor position that each of
    the three modes reaches, and the data are not touched. *)
Theorem seek_from_end_unchecked (m : Message.t) (off target : Z) :
  pos (seek off SEEK_END m) = len (data m) - off /\
  (len (data m) + off) - pos (seek off SEEK_END m) = 2 * off /\
  data (seek off SEEK_END m) = data m /\
  pos (seek target SEEK_SET m) = target /\
  pos (seek (target - pos m) SEEK_CUR m) = target /\
  pos (seek (len (data m) - target) SEEK_END m) = target /\
  data (seek target SEEK_SET m) = data m /\
  data (seek (target - pos m) SEEK_CUR m) = data m.
Proof.
  cbv [seek SEEK_SET SEEK_CUR SEEK_END Z.eqb Pos.eqb with_pos pos data].
  repeat split; try reflexivity; lia.
Qed.

(** C10. With the cursor strictly beyond the end of the data, a read of an
    explicit size (a byte count, so not negative) returns no byte and puts
    the cursor back at exactly the length of the data; the data and the
    other attributes stay as they were. *)
Theorem read_beyond_end_rewinds (m : Message.t) (size : Z) :
  len (data m) < pos m -> 0 <= size ->
  read (Some size) m = ([], with_pos (len (data m)) m).
Proof.
  intros Hpos Hsize. unfold read.
  destruct (Z.ltb_spec (len (data m)) (size + pos m)) as [_|]; [|lia].
  replace (pos m + (len (data m) - pos m)) with (len (data m)) by lia.
  rewrite slice_empty_beyond; trivial; lia.
Qed.

Lemma read_beyond_end_rewinds_witness :
  read (Some 3) (seek 9 SEEK_SET Scenario.blob4) = ([], Scenario.blob4).
Proof.
  apply (read_beyond_end_rewinds (seek 9 SEEK_SET Scenario.blob4) 3); [reflexivity | lia].
Defined.

End BlobBuffer.

(** ** Properties of the object store *)

Section ObjectStore.

Context {server : Server}.
Import IMAPConnection.

Local Ltac run := unfold bind, ret, gets, modify, raise; cbn.

Lemma dict_remove_app (k v : string) (front rest : dict string) :
  exists front', dict_remove k (front ++ (k, v) :: rest) = front' ++ rest.
Proof.
  induction front as [|[k' v'] front IH]; cbn.
  - rewrite String.eqb_refl. now exists [].
  - destruct (String.eqb k' k).
    + exists (front ++ [(k, v)]). now rewrite <- app_assoc.
    + destruct IH as [front' IH]. exists ((k', v') :: front'). cbn. now rewrite IH.
Qed.

Lemma dict_get_app (k v : string) (front rest : dict string) :
  exists v', dict_get k (front ++ (k, v) :: rest) = Some v'.
Proof.
  induction front as [|[k' v'] front IH]; cbn.
  - rewrite String.eqb_refl. now exists v.
  - destruct (String.eqb k' k); [now exists v' | exact IH].
Qed.

Lemma purge_copy_total (uid : string) (rest : list (string * string)) :
  forall (front : dict string) (c : IMAPConnection.t),
    uid_cache c = front ++ rest ->
    exists c', purge_copy uid rest c = (Ok tt, c') /\ conn c' = conn c.
Proof.
  induction rest as [|[subject s_uid] rest IH]; intros front c Hc; cbn.
  - now exists c.
  - destruct (String.eqb s_uid uid).
    + destruct (dict_get_app subject s_uid front rest) as [v Hv].
      destruct (dict_remove_app subject s_uid front rest) as [front' Hf].
      unfold bind, uid_cache_pop. rewrite Hc, Hv.
      destruct (IH front' (with_uid_cache (dict_remove subject (front ++ (subject, s_uid) :: rest)) c))
        as [c' [H1 H2]]; [exact Hf|].
      exists c'. split; [exact H1 | exact H2].
    + apply (IH (front ++ [(subject, s_uid)])). now rewrite <- app_assoc.
Qed.

Lemma delete_message_total (uid : string) (c : IMAPConnection.t) :
  exists c', delete_message uid c = (Ok tt, c') /\
             conn c' = conn c ++ [STORE_DELETED uid].
Proof.
  unfold delete_message, conn_uid_store_deleted. run.
  destruct (purge_copy_total uid (uid_cache c) []
              (with_conn (conn c ++ [STORE_DELETED uid]) c)) as [c' [H1 H2]];
    [reflexivity|].
  exists c'. split; [exact H1 | exact H2].
Qed.

Lemma put_message_total (subject : string) (data : bytes) (c : IMAPConnection.t) :
  exists c', put_message subject data c = (Ok tt, c') /\
             conn c' = conn c ++ [APPEND subject data].
Proof.
  unfold put_message, conn_append, uid_cache_set, uid_cache_pop, dict_mem. run.
  destruct (dict_get subject (uid_cache c)) eqn:Hget; cbn.
  - rewrite Hget. cbn.
    destruct (append_response (conn c) subject data); cbn; eexists; split; reflexivity.
  - destruct (append_response (conn c) subject data); cbn; eexists; split; reflexivity.
Qed.

Lemma get_uid_by_subject_total (name : string) (c : IMAPConnection.t) :
  exists old_uid c1,
    get_uid_by_subject name c = (Ok old_uid, c1) /\
    conn c1 = conn c ++ lookup_commands name c.
Proof.
  unfold get_uid_by_subject, lookup_commands, dict_mem. run.
  destruct (dict_get name (uid_cache c)) eqn:Hget; cbn.
  - exists (Some s), c. now rewrite app_nil_r.
  - unfold search_by_subject, conn_uid_search, uid_cache_set. run.
    destruct (search_response (conn c) name) as [|first others]; cbn;
      [eexists; eexists; split; reflexivity|].
    destruct (split " " first) as [|u us]; cbn;
      [eexists; eexists; split; reflexivity|].
    destruct u; destruct us; cbn; eexists; eexists; split; reflexivity.
Qed.

Lemma dict_remove_length (k v : string) (d : dict string) :
  dict_get k d = Some v -> S (List.length (dict_remove k d)) = List.length d.
Proof.
  induction d as [|[k' v'] d IH]; cbn; [discriminate|].
  destruct (String.eqb k' k); [reflexivity|].
  intros H. cbn. now rewrite IH.
Qed.

Lemma purge_live_size_changed (uid : string) (view : list (string * string))
      (size0 : nat) (c : IMAPConnection.t) :
  List.length (uid_cache c) <> size0 ->
  purge_live uid view size0 c = (Raise RuntimeError, c).
Proof.
  intros Hsize. apply Nat.eqb_neq in Hsize.
  destruct view; cbn; now rewrite Hsize.
Qed.

(** The purge of [get_message] raises as soon as one cache entry holds the
    UID: the entry is popped, and the next step of the loop finds the dict
    shorter than it was. *)
Lemma purge_live_raises (uid : string) (view : list (string * string)) :
  forall (front : dict string) (c : IMAPConnection.t),
    uid_cache c = front ++ view ->
    (exists subject, In (subject, uid) view) ->
    exists c', purge_live uid view (List.length (uid_cache c)) c
               = (Raise RuntimeError, c').
Proof.
  induction view as [|[subject s_uid] rest IH]; intros front c Hc [s Hin].
  - destruct Hin.
  - cbn. rewrite Nat.eqb_refl. cbn.
    destruct (String.eqb_spec s_uid uid) as [Heq|Hneq].
    + destruct (dict_get_app subject s_uid front rest) as [v Hv].
      unfold bind, uid_cache_pop. rewrite Hc, Hv.
      eexists. apply purge_live_size_changed. cbn.
      pose proof (dict_remove_length subject v _ Hv). lia.
    + destruct Hin as [Hin|Hin]; [congruence|].
      destruct (IH (front ++ [(subject, s_uid)]) c) as [c' Hc'].
      * now rewrite <- app_assoc.
      * now exists s.
      * now exists c'.
Qed.

(** The branch of [get_message] for an empty answer list, which [imaplib]
    does not hand back: there the purge raises when the cache holds the
    UID. *)
Lemma get_message_purge_raises (uid : string) (c : IMAPConnection.t) :
  uid <> EmptyString ->
  fetch_response (conn c) uid = [] ->
  (exists subject, In (subject, uid) (uid_cache c)) ->
  exists c', get_message uid c = (Raise RuntimeError, c').
Proof.
  intros Huid Hfetch Hin. unfold get_message.
  destruct (String.eqb_spec uid EmptyString) as [|_]; [contradiction|].
  unfold conn_uid_fetch. run. rewrite Hfetch. cbn.
  destruct (purge_live_raises uid (uid_cache c) []
              (with_conn (conn c ++ [FETCH uid]) c)) as [c' Hc'];
    [reflexivity | exact Hin |].
  cbn in Hc'. rewrite Hc'. now exists c'.
Qed.

(** A UID the server has no answer for: [get_message] raises [TypeError],
    and the cache is left as it was. *)
Lemma get_message_no_data (uid : string) (c : IMAPConnection.t)
      (rest : list fetch_item) :
  uid <> EmptyString ->
  fetch_response (conn c) uid = NoData :: rest ->
  get_message uid c = (Raise TypeError, with_conn (conn c ++ [FETCH uid]) c).
Proof.
  intros Huid Hfetch. unfold get_message.
  destruct (String.eqb_spec uid EmptyString) as [|_]; [contradiction|].
  unfold conn_uid_fetch. run. now rewrite Hfetch.
Qed.

(** With the UID cached under the name, [Message.open] ends the same way,
    and the entry is still there for the next call. *)
Lemma open_no_data (name uid : string) (c : IMAPConnection.t)
      (rest : list fetch_item) :
  uid <> EmptyString ->
  dict_get name (uid_cache c) = Some uid ->
  fetch_response (conn c) uid = NoData :: rest ->
  Message.open name c = (Raise TypeError, with_conn (conn c ++ [FETCH uid]) c).
Proof.
  intros Huid Hcached Hfetch.
  unfold Message.open, bind at 1, get_uid_by_subject. run. rewrite Hcached. cbn.
  destruct (String.eqb_spec uid EmptyString) as [|_]; [contradiction|]. cbn.
  unfold bind. now rewrite (get_message_no_data uid c rest).
Qed.

(** C6. A flush of a clean blob leaves the connection as it was: no command
    is sent and the cache is not touched.  A flush of a dirty blob looks up
    the current version of the blob's name, appends the whole buffer under
    that name, then marks the old version deleted exactly when the lookup
    gave one, and returns the blob with the dirty flag cleared; a second
    flush right after it sends nothing, so the two flushes together are one
    store interaction. *)
Theorem flush_store_interactions (m : Message.t) (c : IMAPConnection.t) :
  if Message.dirty m then
    exists (old_uid : option string) (c1 c' : IMAPConnection.t),
      get_uid_by_subject (Message.name m) c = (Ok old_uid, c1) /\
      Message.flush m c = (Ok (Message.with_dirty false m), c') /\
      conn c' = conn c ++ lookup_commands (Message.name m) c
                   ++ [APPEND (Message.name m) (Message.data m)]
                   ++ retire_commands old_uid /\
      Message.flush (Message.with_dirty false m) c'
        = (Ok (Message.with_dirty false m), c')
  else Message.flush m c = (Ok m, c).
Proof.
  destruct (Message.dirty m) eqn:Hdirty.
  - destruct (get_uid_by_subject_total (Message.name m) c) as [old [c1 [Hget Hc1]]].
    destruct (put_message_total (Message.name m) (Message.data m) c1) as [c2 [Hput Hc2]].
    exists old, c1.
    unfold Message.flush. rewrite Hdirty. unfold bind at 1. rewrite Hget.
    unfold bind at 1. rewrite Hput.
    destruct old as [uid|]; cbn [retire_commands].
    + destruct (truthy (Some uid)).
      * destruct (delete_message_total uid c2) as [c3 [Hdel Hc3]].
        exists c3. unfold bind, ret. rewrite Hdel.
        repeat split. rewrite Hc3, Hc2, Hc1. now rewrite <- !app_assoc.
      * exists c2. run. repeat split. rewrite Hc2, Hc1. now rewrite <- !app_assoc.
    + exists c2. run. repeat split. rewrite Hc2, Hc1. now rewrite <- !app_assoc.
  - unfold Message.flush. now rewrite Hdirty.
Qed.

End ObjectStore.

(** ** Properties of the node cache, the resolver and the dispatcher *)

Section Resolver.

Context {server : Server} {env : Surroundings}.

Local Ltac run := unfold bind, ret, gets, modify, raise; cbn.

Lemma get_node_by_path_root :
  IMAPFS.get_node_by_path "/" = IMAPFS.open_node IMAPFS.ROOT.
Proof. reflexivity. Qed.

(** The walk stops at a file and hands that file back, whatever parts of
    the path are left. *)
Lemma walk_stops_at_file (part : string) (rest : list string)
      (r : nat) (f : File.t) (fs : IMAPFS.t) :
  part <> EmptyString ->
  nth_error (IMAPFS.objects fs) r = Some (AFile f) ->
  IMAPFS.walk (part :: rest) (Some r) fs = (Ok (Some r), fs).
Proof.
  intros Hpart Hobj. cbn.
  destruct (String.eqb_spec part EmptyString) as [|_]; [contradiction|].
  unfold bind, IMAPFS.object. now rewrite Hobj.
Qed.

Lemma open_node_cached (name : string) (r : nat) (fs : IMAPFS.t) :
  dict_get name (IMAPFS.open_nodes fs) = Some r ->
  IMAPFS.open_node name fs = (Ok (Some r), fs).
Proof.
  intros Hget. unfold IMAPFS.open_node. run. now rewrite Hget.
Qed.

(** Whatever the store holds, [check_filesystem] does not return [None]. *)
Lemma check_filesystem_never_none (fs : IMAPFS.t) :
  fst (IMAPFS.check_filesystem fs) <> Ok None.
Proof.
  unfold IMAPFS.check_filesystem, bind.
  destruct (IMAPFS.open_node IMAPFS.ROOT fs) as [[[r|]|e] fs1]; cbn;
    try discriminate.
  unfold IMAPFS.object.
  destruct (nth_error (IMAPFS.objects fs1) r) as [[f|d]|]; cbn; try discriminate.
  destruct (list_eq_dec _ _ _); cbn; discriminate.
Qed.

(** With no node at the path and none at its parent, [mkdir] answers
    [-EEXIST] where [mknod] answers [-ENOENT]. *)
Lemma mkdir_mknod_missing_parent (path : string) (mode dev : Z)
      (fs fs1 fs2 : IMAPFS.t) :
  IMAPFS.get_node_by_path path fs = (Ok None, fs1) ->
  IMAPFS.get_node_by_path (IMAPFS.get_path_parent path) fs1 = (Ok None, fs2) ->
  IMAPFS.mkdir path mode fs = (Ok (RInt (- IMAPFS.EEXIST)), fs2) /\
  IMAPFS.mknod path mode dev fs = (Ok (RInt (- IMAPFS.ENOENT)), fs2).
Proof.
  intros H1 H2. unfold IMAPFS.mkdir, IMAPFS.mknod, bind.
  now rewrite H1, H2.
Qed.

End Resolver.

Section Dispatcher.

Context {server : Server} {env : Surroundings}.

Local Ltac run := unfold bind, ret, gets, modify, raise; cbn.

(** A blob whose tag is neither 'f' nor 'd' leaves [obj] unbound, and
    [open_node] raises instead of returning [None]. *)
Lemma open_node_unknown_tag (name : string) (fs : IMAPFS.t)
      (msg : Message.t) (c : IMAPConnection.t) (b : byte) (rest : bytes) :
  dict_get name (IMAPFS.open_nodes fs) = None ->
  Message.open name (IMAPFS.imap fs) = (Ok msg, c) ->
  Message.data msg = b :: rest ->
  b <> "f"%byte -> b <> "d"%byte ->
  IMAPFS.open_node name fs = (Raise UnboundLocalError, IMAPFS.with_imap c fs).
Proof.
  intros Hcache Hopen Hdata Hf Hd.
  unfold IMAPFS.open_node. run. rewrite Hcache.
  unfold try_except, IMAPFS.on_imap, zoom. run. rewrite Hopen. cbn.
  rewrite Hdata. cbn.
  destruct (Byte.eqb b "f") eqn:Ef; [apply Byte.byte_dec_bl in Ef; contradiction|].
  destruct (Byte.eqb b "d") eqn:Ed; [apply Byte.byte_dec_bl in Ed; contradiction|].
  reflexivity.
Qed.

(** A blob that decodes is turned into a node object, which is entered in
    [open_nodes] under its name and returned. *)
Lemma open_node_file (name : string) (fs : IMAPFS.t)
      (msg : Message.t) (c : IMAPConnection.t) (rest : bytes) :
  dict_get name (IMAPFS.open_nodes fs) = None ->
  Message.open name (IMAPFS.imap fs) = (Ok msg, c) ->
  Message.data msg = "f"%byte :: rest ->
  IMAPFS.open_node name fs
    = (Ok (Some (List.length (IMAPFS.objects fs))),
       IMAPFS.mk c
         (dict_set name (List.length (IMAPFS.objects fs)) (IMAPFS.open_nodes fs))
         (IMAPFS.objects fs ++ [AFile (File.mk msg)])
         (IMAPFS.uuid_calls fs)).
Proof.
  intros Hcache Hopen Hdata.
  unfold IMAPFS.open_node. run. rewrite Hcache.
  unfold try_except, IMAPFS.on_imap, zoom. run. rewrite Hopen. cbn.
  rewrite Hdata. cbn.
  unfold IMAPFS.of_result, File.from_message. rewrite Hdata. reflexivity.
Qed.

Lemma open_node_directory (name : string) (fs : IMAPFS.t)
      (msg : Message.t) (c : IMAPConnection.t) (m1 m2 : byte) (rest : bytes) :
  dict_get name (IMAPFS.open_nodes fs) = None ->
  Message.open name (IMAPFS.imap fs) = (Ok msg, c) ->
  Message.data msg = "d"%byte :: m1 :: m2 :: rest ->
  IMAPFS.open_node name fs
    = (Ok (Some (List.length (IMAPFS.objects fs))),
       IMAPFS.mk c
         (dict_set name (List.length (IMAPFS.objects fs)) (IMAPFS.open_nodes fs))
         (IMAPFS.objects fs ++ [ADirectory (Directory.mk msg (decode_children rest))])
         (IMAPFS.uuid_calls fs)).
Proof.
  intros Hcache Hopen Hdata.
  unfold IMAPFS.open_node. run. rewrite Hcache.
  unfold try_except, IMAPFS.on_imap, zoom. run. rewrite Hopen. cbn.
  rewrite Hdata. cbn.
  unfold IMAPFS.of_result, Directory.from_message. rewrite Hdata.
  assert (Hlen : (3 <=? len ("d"%byte :: m1 :: m2 :: rest)) = true).
  { apply Z.leb_le. unfold len. cbn [List.length]. lia. }
  rewrite Hlen. reflexivity.
Qed.

End Dispatcher.

(** ** Where the code leaves the specification *)

(** C1 (defect of the code).  In a mailbox whose root lists the file "f", the
    path "/f/x" runs through that file: the claim asks for NotFound, but the
    loop of [get_node_by_path] breaks at the file and the method returns the
    file node.  The path "/" resolves to whatever [open_node(ROOT)] gives, as
    the claim says. *)
Theorem get_node_by_path_through_file :
  fst (Scenario.get_node_by_path "/f/x" Scenario.session) = Ok (Some 1%nat) /\
  nth_error
    (IMAPFS.objects (snd (Scenario.get_node_by_path "/f/x" Scenario.session))) 1
    = Some (AFile (File.mk (Message.init Scenario.FILE_NAME Scenario.file_blob))) /\
  fst (Scenario.get_node_by_path "/f/x" Scenario.session) <> Ok None /\
  Scenario.get_node_by_path "/" = Scenario.open_node IMAPFS.ROOT.
Proof.
  split; [vm_compute; reflexivity|].
  split; [vm_compute; reflexivity|].
  split; [vm_compute; discriminate|].
  reflexivity.
Qed.

(** C2 (defect of the code).  On a mailbox with no root object
    [check_filesystem] returns [False], the answer for a filesystem that is
    there but cannot be decoded, where the claim and the docstring of the
    method ask for [None]; in no state at all does it return [None]. *)
Theorem check_filesystem_absent_root :
  fst (Scenario.open_node IMAPFS.ROOT Scenario.blank_session) = Ok None /\
  fst (Scenario.check_filesystem Scenario.blank_session) = Ok (Some false) /\
  forall (server : Server) (env : Surroundings) (fs : IMAPFS.t),
    fst (IMAPFS.check_filesystem fs) <> Ok None.
Proof.
  split; [vm_compute; reflexivity|].
  split; [vm_compute; reflexivity|].
  intros server env fs. apply check_filesystem_never_none.
Qed.

(** C3 (defect of the code).  The name "n" has no version in the mailbox but
    the cache still maps it to UID 5.  The server has no answer for FETCH 5,
    [imaplib] hands back the list [[None]], and [get_message] raises
    [TypeError] at [params[1][0][1]]: neither the [None] of its docstring nor
    the [IOError] by which [Message.open] reports a name that is not found.
    The purge of the cache is not reached, the stale entry stays, and the
    same call made again ends the same way.  Removing the name does not
    raise. *)
Theorem open_with_stale_cache_raises :
  Mailbox.fetch [] "5" = [NoData] /\
  IMAPConnection.get_message (server := Mailbox.server) "5" Scenario.stale_connection
    = (Raise TypeError, IMAPConnection.mk [FETCH "5"] "INBOX" [("n", "5")]%string) /\
  Message.open (server := Mailbox.server) "n" Scenario.stale_connection
    = (Raise TypeError, IMAPConnection.mk [FETCH "5"] "INBOX" [("n", "5")]%string) /\
  Message.open (server := Mailbox.server) "n"
    (snd (Message.open (server := Mailbox.server) "n" Scenario.stale_connection))
    = (Raise TypeError,
       IMAPConnection.mk [FETCH "5"; FETCH "5"] "INBOX" [("n", "5")]%string) /\
  Message.unlink (server := Mailbox.server) "n" Scenario.stale_connection
    = (Ok tt, IMAPConnection.mk [STORE_DELETED "5"] "INBOX" []).
Proof.
  repeat split; vm_compute; reflexivity.
Qed.

(** C4 (defect of the code).  With a root that has no entry "a", the parent
    of "/a/b" does not exist: the claim asks for NotFound, but [mkdir]
    answers [-EEXIST], the answer for an occupied path, where [mknod] in the
    same state answers [-ENOENT]. *)
Theorem mkdir_missing_parent_answers_eexist :
  fst (Scenario.get_node_by_path "/a/b" Scenario.session) = Ok None /\
  fst (Scenario.get_node_by_path "/a" Scenario.session) = Ok None /\
  fst (Scenario.mkdir "/a/b" 493 Scenario.session) = Ok (RInt (- IMAPFS.EEXIST)) /\
  fst (Scenario.mknod "/a/b" 493 0 Scenario.session) = Ok (RInt (- IMAPFS.ENOENT)) /\
  RInt (- IMAPFS.EEXIST) <> RInt (- IMAPFS.ENOENT).
Proof.
  repeat split; try (vm_compute; reflexivity). discriminate.
Qed.

(** On success [mkdir] writes the new directory to the store before it
    writes the parent that lists it. *)
Lemma mkdir_flushes_child_before_parent :
  fst (Scenario.mkdir "/a" 493 Scenario.session) = Ok RNone /\
  skipn 3 (IMAPConnection.conn (IMAPFS.imap (snd (Scenario.mkdir "/a" 493 Scenario.session))))
    = [SEARCH IMAPFS.ROOT; FETCH "1"; SEARCH "uuid-0";
       APPEND "uuid-0" Directory.HEADER;
       APPEND IMAPFS.ROOT
         (Directory.encode (env := Mailbox.surroundings)
            (Scenario.root_children ++ [("uuid-0", "a")]%string));
       STORE_DELETED "1"].
Proof.
  split; vm_compute; reflexivity.
Qed.

(** C5 (defect of the code).  The blob stored under the name of "g" is found
    and fetched, and its tag byte is 'x': the claim asks for NotFound, but
    [open_node] raises [UnboundLocalError] and caches nothing. *)
Theorem open_node_unknown_tag_raises :
  fst (Message.open (server := Mailbox.server) Scenario.ODD_NAME
         (IMAPFS.imap Scenario.session))
    = Ok (Message.init Scenario.ODD_NAME Scenario.odd_blob) /\
  fst (Scenario.open_node Scenario.ODD_NAME Scenario.session)
    = Raise UnboundLocalError /\
  fst (Scenario.open_node Scenario.ODD_NAME Scenario.session) <> Ok None /\
  IMAPFS.open_nodes (snd (Scenario.open_node Scenario.ODD_NAME Scenario.session)) = [].
Proof.
  split; [vm_compute; reflexivity|].
  split; [vm_compute; reflexivity|].
  split; [vm_compute; discriminate|].
  vm_compute; reflexivity.
Qed.

(** ** Further properties of the blob buffer *)

Section BlobOperations.

Import Message.

Lemma firstn_repeat_le {A : Type} (x : A) (k n : nat) :
  (k <= n)%nat -> firstn k (repeat x n) = repeat x k.
Proof.
  revert n. induction k as [|k IH]; intros [|n] H; cbn; try reflexivity; try lia.
  now rewrite IH by lia.
Qed.

Lemma firstn_padded (d : bytes) (x : byte) (p k : nat) :
  (p <= List.length d + k)%nat ->
  firstn p (d ++ repeat x k) = firstn p (d ++ repeat x (p - List.length d)).
Proof.
  intros H. rewrite !firstn_app.
  rewrite !firstn_repeat_le by lia. reflexivity.
Qed.

Lemma length_firstn_padded (d : bytes) (x : byte) (p : nat) :
  List.length (firstn p (d ++ repeat x (p - List.length d))) = p.
Proof.
  rewrite length_firstn, length_app, repeat_length. lia.
Qed.

(** What [write] leaves in the buffer, for a cursor that is not negative. *)
Lemma write_data (m : Message.t) (buf : bytes) :
  0 <= pos m ->
  data (write buf m)
    = firstn (Z.to_nat (pos m))
             (data m ++ repeat FILLER (Z.to_nat (pos m) - List.length (data m)))
      ++ buf ++ skipn (Z.to_nat (pos m + len buf)) (data m).
Proof.
  intros Hpos. unfold write.
  destruct (Z.ltb_spec (len (data m)) (pos m + len buf)) as [Hgrow|Hfit].
  - unfold truncate.
    destruct (Z.ltb_spec (pos m + len buf) (len (data m))) as [|_]; [lia|].
    cbn [data pos with_data with_dirty with_pos].
    unfold set_slice.
    assert (Hlen : len (data m ++ times FILLER (pos m + len buf - len (data m)))
                   = pos m + len buf).
    { rewrite len_app, len_times by lia. lia. }
    rewrite Hlen.
    rewrite (adjust_inside (pos m + len buf) (pos m)) by (pose proof (len_nonneg buf); lia).
    rewrite (adjust_inside (pos m + len buf) (pos m + len buf))
      by (pose proof (len_nonneg buf); lia).
    rewrite Z.max_r by (pose proof (len_nonneg buf); lia).
    rewrite (skipn_all2 (n := Z.to_nat (pos m + len buf)) (data m))
      by (unfold len in *; lia).
    rewrite (skipn_all2 (n := Z.to_nat (pos m + len buf)))
      by (unfold len in *; lia).
    unfold times. rewrite firstn_padded; [reflexivity|].
    unfold len in *. lia.
  - cbn [data pos with_data with_dirty with_pos].
    unfold set_slice.
    rewrite (adjust_inside (len (data m)) (pos m)) by (pose proof (len_nonneg buf); lia).
    rewrite (adjust_inside (len (data m)) (pos m + len buf))
      by (pose proof (len_nonneg buf); lia).
    rewrite Z.max_r by (pose proof (len_nonneg buf); lia).
    replace (Z.to_nat (pos m) - List.length (data m))%nat with 0%nat
      by (pose proof (len_nonneg buf); unfold len in *; lia).
    cbn [repeat]. now rewrite app_nil_r.
Qed.

Lemma write_pos (m : Message.t) (buf : bytes) :
  pos (write buf m) = pos m + len buf.
Proof.
  unfold write.
  destruct (Z.ltb_spec (len (data m)) (pos m + len buf)); cbn; [|reflexivity].
  unfold truncate.
  destruct (Z.ltb_spec (pos m + len buf) (len (data m))); [lia|]. reflexivity.
Qed.

(** X1. With the cursor at p >= 0, [write] overwrites in place: the bytes
    before p stay (a buffer shorter than p is first padded with the filler up
    to p), the written bytes follow, and the old bytes beyond p + len(buf)
    stay behind them.  The length becomes max(len, p + len(buf)), the cursor
    moves by len(buf), the blob is dirty and keeps its name. *)
Theorem write_overwrites_in_place (m : Message.t) (buf : bytes) :
  0 <= pos m ->
  data (write buf m)
    = firstn (Z.to_nat (pos m))
             (data m ++ repeat FILLER (Z.to_nat (pos m) - List.length (data m)))
      ++ buf ++ skipn (Z.to_nat (pos m + len buf)) (data m) /\
  len (data (write buf m)) = Z.max (len (data m)) (pos m + len buf) /\
  pos (write buf m) = pos m + len buf /\
  dirty (write buf m) = true /\
  name (write buf m) = name m.
Proof.
  intros Hpos. split; [now apply write_data|].
  split.
  - rewrite write_data by assumption. unfold len.
    rewrite !length_app, length_firstn_padded, length_skipn. lia.
  - split; [apply write_pos|].
    unfold write.
    destruct (Z.ltb_spec (len (data m)) (pos m + len buf)); cbn; split; try reflexivity.
    unfold truncate.
    destruct (Z.ltb_spec (pos m + len buf) (len (data m))); [lia | reflexivity].
Qed.

Lemma write_overwrites_in_place_witness :
  data (write ["X"; "Y"]%byte (seek 6 SEEK_SET Scenario.blob4))
    = ["a"; "b"; "c"; "d"; "."; "."; "X"; "Y"]%byte /\
  data (write ["X"; "Y"]%byte (seek 1 SEEK_SET Scenario.blob4))
    = ["a"; "X"; "Y"; "d"]%byte.
Proof.
  split.
  - destruct (write_overwrites_in_place (seek 6 SEEK_SET Scenario.blob4) ["X"; "Y"]%byte)
      as [H _]; [cbn; lia | exact H].
  - destruct (write_overwrites_in_place (seek 1 SEEK_SET Scenario.blob4) ["X"; "Y"]%byte)
      as [H _]; [cbn; lia | exact H].
Defined.

(** X2. What [write] has written is what a read at the same place returns:
    after a write at a cursor p >= 0, seeking back to p and reading len(buf)
    bytes gives [buf], and the cursor is again behind the written bytes. *)
Theorem write_then_read_back (m : Message.t) (buf : bytes) :
  0 <= pos m ->
  read (Some (len buf)) (seek (pos m) SEEK_SET (write buf m))
    = (buf, write buf m).
Proof.
  intros Hpos.
  change (seek (pos m) SEEK_SET (write buf m)) with (with_pos (pos m) (write buf m)).
  pose proof (len_nonneg buf) as Hbuf.
  pose proof (write_data m buf Hpos) as Hdata.
  pose proof (write_pos m buf) as Hwpos.
  pose proof (read_sized_from_cursor (with_pos (pos m) (write buf m)) (len buf))
    as Hread.
  cbn [pos data with_pos] in Hread.
  specialize (Hread Hpos Hbuf).
  assert (Hbytes : fst (read (Some (len buf)) (with_pos (pos m) (write buf m))) = buf).
  { rewrite Hread, Hdata.
    rewrite skipn_app, length_firstn_padded, Nat.sub_diag.
    rewrite (skipn_all2 (n := Z.to_nat (pos m))) by (rewrite length_firstn_padded; lia).
    cbn [skipn app]. rewrite firstn_app.
    unfold len. rewrite Nat2Z.id, Nat.sub_diag, firstn_all. cbn [firstn].
    now rewrite app_nil_r. }
  revert Hbytes. unfold read.
  cbn [pos data with_pos fst].
  assert (Hlen : len (data (write buf m)) = Z.max (len (data m)) (pos m + len buf)).
  { rewrite Hdata. unfold len.
    rewrite !length_app, length_firstn_padded, length_skipn. lia. }
  destruct (Z.ltb_spec (len (data (write buf m))) (len buf + pos m)) as [Hlt|_]; [lia|].
  intros ->. f_equal.
  destruct (write buf m) as [n d di p c]. cbn in *. unfold with_pos. cbn.
  now rewrite Hwpos.
Qed.

Lemma write_then_read_back_witness :
  read (Some 2) (seek 6 SEEK_SET (write ["X"; "Y"]%byte (seek 6 SEEK_SET Scenario.blob4)))
    = (["X"; "Y"]%byte, write ["X"; "Y"]%byte (seek 6 SEEK_SET Scenario.blob4)).
Proof.
  apply (write_then_read_back (seek 6 SEEK_SET Scenario.blob4) ["X"; "Y"]%byte).
  cbn. lia.
Defined.

(** X3. A cursor that [seek] has put before the start counts from the end,
    as a Python index does.  With the cursor at -k (0 < k <= len) a buffer
    shorter than k overwrites bytes of the last k, and the length stays; a
    buffer of exactly k bytes does not replace the last k bytes but is
    inserted in front of them, so the data grow by k. *)
Theorem write_at_negative_cursor (m : Message.t) (buf : bytes) :
  pos m < 0 -> - len (data m) <= pos m -> pos m + len buf <= 0 ->
  (pos m + len buf < 0 ->
   data (write buf m)
     = firstn (Z.to_nat (len (data m) + pos m)) (data m) ++ buf
       ++ skipn (Z.to_nat (len (data m) + pos m + len buf)) (data m) /\
   len (data (write buf m)) = len (data m)) /\
  (pos m + len buf = 0 ->
   data (write buf m)
     = firstn (Z.to_nat (len (data m) + pos m)) (data m) ++ buf
       ++ skipn (Z.to_nat (len (data m) + pos m)) (data m) /\
   len (data (write buf m)) = len (data m) + len buf) /\
  pos (write buf m) = pos m + len buf.
Proof.
  intros Hneg Hlow Hend.
  pose proof (len_nonneg buf) as Hbuf.
  assert (Hdata : data (write buf m)
                  = set_slice (data m) (pos m) (pos m + len buf) buf).
  { unfold write.
    destruct (Z.ltb_spec (len (data m)) (pos m + len buf)); [lia | reflexivity]. }
  split; [|split; [|apply write_pos]].
  - intros Hlt. rewrite Hdata. unfold set_slice, adjust.
    destruct (Z.ltb_spec (pos m) 0); [|lia].
    destruct (Z.ltb_spec (pos m + len buf) 0); [|lia].
    replace (Z.max (pos m + len (data m)) 0) with (len (data m) + pos m) by lia.
    replace (Z.max (len (data m) + pos m) (Z.max (pos m + len buf + len (data m)) 0))
      with (len (data m) + pos m + len buf) by lia.
    split; [reflexivity|].
    unfold len in *. rewrite !length_app, length_firstn, length_skipn. lia.
  - intros Heq. rewrite Hdata. unfold set_slice, adjust.
    destruct (Z.ltb_spec (pos m) 0); [|lia].
    destruct (Z.ltb_spec (pos m + len buf) 0); [lia|].
    replace (Z.max (pos m + len (data m)) 0) with (len (data m) + pos m) by lia.
    replace (Z.max (len (data m) + pos m) (Z.min (pos m + len buf) (len (data m))))
      with (len (data m) + pos m) by lia.
    split; [reflexivity|].
    unfold len in *. rewrite !length_app, length_firstn, length_skipn. lia.
Qed.

Lemma write_at_negative_cursor_witness :
  data (write ["X"; "Y"]%byte (seek (-3) SEEK_SET Scenario.blob4))
    = ["a"; "X"; "Y"; "d"]%byte /\
  data (write ["X"; "Y"]%byte (seek (-2) SEEK_SET Scenario.blob4))
    = ["a"; "b"; "X"; "Y"; "c"; "d"]%byte.
Proof.
  split.
  - destruct (write_at_negative_cursor (seek (-3) SEEK_SET Scenario.blob4) ["X"; "Y"]%byte)
      as [H _]; try (cbn; lia).
    destruct H as [H _]; [reflexivity | exact H].
  - destruct (write_at_negative_cursor (seek (-2) SEEK_SET Scenario.blob4) ["X"; "Y"]%byte)
      as [_ [H _]]; try (cbn; lia).
    destruct H as [H _]; [reflexivity | exact H].
Defined.

Lemma firstn_plus {A : Type} (a b : nat) (l : list A) :
  firstn (a + b) l = firstn a l ++ firstn b (skipn a l).
Proof.
  revert l. induction a as [|a IH]; intros [|x l]; cbn; try reflexivity.
  - now rewrite firstn_nil.
  - now rewrite IH.
Qed.

(** A read of a size that is not negative, from a cursor that is not
    negative: the bytes and the blob it leaves. *)
Lemma read_sized (m : Message.t) (size : Z) :
  0 <= pos m -> 0 <= size ->
  read (Some size) m
    = (firstn (Z.to_nat size) (skipn (Z.to_nat (pos m)) (data m)),
       with_pos (Z.min (pos m + size) (len (data m))) m).
Proof.
  intros Hpos Hsize.
  pose proof (read_sized_from_cursor m size Hpos Hsize) as Hbytes.
  revert Hbytes. unfold read. cbn [fst].
  destruct (Z.ltb_spec (len (data m)) (size + pos m)); intros ->; f_equal; f_equal; lia.
Qed.

(** X4. Reading a bytes and then b bytes is reading a + b bytes at once: the
    same bytes come out, and the blob is left the same (cursor and sizes not
    negative). *)
Theorem read_in_two_steps (m : Message.t) (a b : Z) :
  0 <= pos m -> 0 <= a -> 0 <= b ->
  fst (read (Some a) m) ++ fst (read (Some b) (snd (read (Some a) m)))
    = fst (read (Some (a + b)) m) /\
  snd (read (Some b) (snd (read (Some a) m))) = snd (read (Some (a + b)) m).
Proof.
  intros Hpos Ha Hb.
  pose proof (len_nonneg (data m)) as HL.
  rewrite (read_sized m a), (read_sized m (a + b)) by lia. cbn [fst snd].
  rewrite read_sized by (cbn; lia). cbn [fst snd pos data with_pos].
  split.
  - replace (Z.to_nat (a + b)) with (Z.to_nat a + Z.to_nat b)%nat by lia.
    rewrite firstn_plus, skipn_skipn. f_equal.
    destruct (Z.le_gt_cases (pos m + a) (len (data m))) as [Hin|Hout].
    + rewrite Z.min_l by lia. do 2 f_equal. lia.
    + rewrite Z.min_r by lia.
      rewrite !(skipn_all2 (data m)) by (unfold len in *; lia).
      reflexivity.
  - unfold with_pos. cbn. f_equal. lia.
Qed.

Lemma read_in_two_steps_witness :
  fst (read (Some 1) (seek 1 SEEK_SET Scenario.blob4))
    ++ fst (read (Some 5) (snd (read (Some 1) (seek 1 SEEK_SET Scenario.blob4))))
    = fst (read (Some 6) (seek 1 SEEK_SET Scenario.blob4)).
Proof.
  apply (read_in_two_steps (seek 1 SEEK_SET Scenario.blob4) 1 5); cbn; lia.
Defined.

(** X5. Two truncations in a row, to M and then to N >= M: whatever lay
    beyond M is gone.  The result is the first M bytes (padded with the
    filler when the buffer was shorter than M) followed by N - M filler
    bytes; growing back does not bring the old bytes back. *)
Theorem truncate_then_grow (m : Message.t) (M N : Z) :
  0 <= M -> M <= N ->
  data (truncate (Some N) (truncate (Some M) m))
    = firstn (Z.to_nat M)
             (data m ++ repeat FILLER (Z.to_nat M - List.length (data m)))
      ++ repeat FILLER (Z.to_nat (N - M)) /\
  len (data (truncate (Some N) (truncate (Some M) m))) = N /\
  dirty (truncate (Some N) (truncate (Some M) m)) = true.
Proof.
  intros HM HN.
  assert (H1 : data (truncate (Some M) m)
               = firstn (Z.to_nat M)
                   (data m ++ repeat FILLER (Z.to_nat M - List.length (data m)))).
  { unfold truncate.
    destruct (Z.ltb_spec M (len (data m))) as [Hlt|Hge].
    - assert (Hd : data (if M <? pos (with_data (slice (data m) None (Some M)) m)
                         then with_pos M (with_data (slice (data m) None (Some M)) m)
                         else with_data (slice (data m) None (Some M)) m)
                   = slice (data m) None (Some M))
        by (destruct (M <? _); reflexivity).
      cbn [data with_dirty]. rewrite Hd, slice_prefix by lia.
      replace (Z.to_nat M - List.length (data m))%nat with 0%nat
        by (unfold len in *; lia).
      cbn [repeat]. now rewrite app_nil_r.
    - cbn [data with_dirty with_data]. unfold times.
      replace (Z.to_nat (M - len (data m)))
        with (Z.to_nat M - List.length (data m))%nat by (unfold len in *; lia).
      symmetry. apply firstn_all2. rewrite length_app, repeat_length.
      unfold len in *. lia. }
  assert (HL1 : len (data (truncate (Some M) m)) = M).
  { rewrite H1. unfold len. rewrite length_firstn_padded. lia. }
  assert (H2 : data (truncate (Some N) (truncate (Some M) m))
               = data (truncate (Some M) m) ++ repeat FILLER (Z.to_nat (N - M))).
  { unfold truncate at 1.
    destruct (Z.ltb_spec N (len (data (truncate (Some M) m)))); [lia|].
    cbn [data with_dirty with_data]. unfold times. now rewrite HL1. }
  split; [now rewrite H2, H1|]. split.
  - rewrite H2, len_app, HL1. unfold len. rewrite repeat_length. lia.
  - reflexivity.
Qed.

Lemma truncate_then_grow_witness :
  data (truncate (Some 4) (truncate (Some 1) Scenario.blob4))
    = ["a"; "."; "."; "."]%byte.
Proof.
  destruct (truncate_then_grow Scenario.blob4 1 4) as [H _]; [lia | lia | exact H].
Defined.

(** X6. A negative size does not make [truncate] fail: for -len <= M < 0 it
    drops the last -M bytes, and it puts a cursor that was beyond M at M, so
    the cursor ends up negative. *)
Theorem truncate_negative_size (m : Message.t) (M : Z) :
  - len (data m) <= M -> M < 0 ->
  data (truncate (Some M) m) = firstn (Z.to_nat (len (data m) + M)) (data m) /\
  pos (truncate (Some M) m) = Z.min (pos m) M /\
  pos (truncate (Some M) m) < 0 /\
  dirty (truncate (Some M) m) = true.
Proof.
  intros Hlow Hneg. unfold truncate.
  destruct (Z.ltb_spec M (len (data m))) as [_|]; [|pose proof (len_nonneg (data m)); lia].
  assert (Hs : slice (data m) None (Some M)
               = firstn (Z.to_nat (len (data m) + M)) (data m)).
  { unfold slice, bound, adjust.
    destruct (Z.ltb_spec M 0); [|lia].
    rewrite Z.max_l by lia. cbn [skipn Z.to_nat]. f_equal. lia. }
  cbn [pos with_data].
  destruct (Z.ltb_spec M (pos m)); cbn; rewrite Hs; repeat split; lia.
Qed.

Lemma truncate_negative_size_witness :
  data (truncate (Some (-1)) Scenario.blob4) = ["a"; "b"; "c"]%byte /\
  pos (truncate (Some (-1)) Scenario.blob4) = -1.
Proof.
  destruct (truncate_negative_size Scenario.blob4 (-1)) as [H1 [H2 _]];
    [cbn; lia | lia |].
  split; [exact H1 | exact H2].
Defined.

End BlobOperations.

(** ** Further properties of the object store *)

Section StoreCache.

Context {server : Server}.
Import IMAPConnection.

Local Ltac run := unfold bind, ret, gets, modify, raise; cbn.

Lemma dict_get_set_same {V : Type} (k : string) (v : V) (d : dict V) :
  dict_get k (dict_set k v d) = Some v.
Proof.
  induction d as [|[k' v'] d IH]; cbn.
  - now rewrite String.eqb_refl.
  - destruct (String.eqb k' k) eqn:E; cbn; now rewrite E.
Qed.

Lemma dict_get_set_other {V : Type} (k k0 : string) (v : V) (d : dict V) :
  k0 <> k -> dict_get k0 (dict_set k v d) = dict_get k0 d.
Proof.
  intros Hne. induction d as [|[k' v'] d IH]; cbn.
  - destruct (String.eqb_spec k k0); [congruence | reflexivity].
  - destruct (String.eqb_spec k' k) as [->|Hk]; cbn.
    + destruct (String.eqb_spec k k0); [congruence | reflexivity].
    + now rewrite IH.
Qed.

Lemma dict_get_remove_other {V : Type} (k k0 : string) (d : dict V) :
  k0 <> k -> dict_get k0 (dict_remove k d) = dict_get k0 d.
Proof.
  intros Hne. induction d as [|[k' v'] d IH]; cbn; [reflexivity|].
  destruct (String.eqb_spec k' k) as [->|Hk]; cbn.
  - destruct (String.eqb_spec k k0); [congruence | reflexivity].
  - now rewrite IH.
Qed.

Lemma dict_get_absent {V : Type} (k : string) (d : dict V) :
  ~ In k (map fst d) -> dict_get k d = None.
Proof.
  induction d as [|[k' v'] d IH]; cbn; [reflexivity|].
  intros Hnot. destruct (String.eqb_spec k' k) as [->|Hk].
  - exfalso. apply Hnot. now left.
  - apply IH. intros Hin. apply Hnot. now right.
Qed.

Lemma dict_get_In {V : Type} (k : string) (v : V) (d : dict V) :
  dict_get k d = Some v -> In (k, v) d.
Proof.
  induction d as [|[k' v'] d IH]; cbn; [discriminate|].
  destruct (String.eqb_spec k' k) as [->|Hk].
  - intros [= ->]. now left.
  - intros H. right. now apply IH.
Qed.

Lemma dict_remove_keys {V : Type} (k k0 : string) (d : dict V) :
  In k0 (map fst (dict_remove k d)) -> In k0 (map fst d).
Proof.
  induction d as [|[k' v'] d IH]; cbn; [trivial|].
  destruct (String.eqb k' k); cbn; intuition.
Qed.

Lemma dict_get_remove_same {V : Type} (k : string) (d : dict V) :
  unique_keys d -> dict_get k (dict_remove k d) = None.
Proof.
  unfold unique_keys. induction d as [|[k' v'] d IH]; cbn; [reflexivity|].
  intros Hnd. inversion Hnd as [|? ? Hnot Hnd']; subst.
  destruct (String.eqb_spec k' k) as [->|Hk]; cbn.
  - now apply dict_get_absent.
  - destruct (String.eqb_spec k' k); [congruence|]. now apply IH.
Qed.

Lemma unique_keys_remove {V : Type} (k : string) (d : dict V) :
  unique_keys d -> unique_keys (dict_remove k d).
Proof.
  unfold unique_keys. induction d as [|[k' v'] d IH]; cbn; [trivial|].
  intros Hnd. inversion Hnd as [|? ? Hnot Hnd']; subst.
  destruct (String.eqb k' k); cbn; [assumption|].
  constructor; [|now apply IH].
  intros Hin. apply Hnot. now apply dict_remove_keys in Hin.
Qed.

Lemma dict_set_keys {V : Type} (k k0 : string) (v : V) (d : dict V) :
  In k0 (map fst (dict_set k v d)) -> k0 = k \/ In k0 (map fst d).
Proof.
  induction d as [|[k' v'] d IH]; cbn.
  - intros [<-|[]]. now left.
  - destruct (String.eqb_spec k' k) as [->|Hk]; cbn; intuition.
Qed.

Lemma unique_keys_set {V : Type} (k : string) (v : V) (d : dict V) :
  unique_keys d -> unique_keys (dict_set k v d).
Proof.
  unfold unique_keys. induction d as [|[k' v'] d IH]; cbn.
  - intros _. constructor; [intros [] | constructor].
  - intros Hnd. inversion Hnd as [|? ? Hnot Hnd']; subst.
    destruct (String.eqb_spec k' k) as [->|Hk]; cbn.
    + now constructor.
    + constructor; [|now apply IH].
      intros Hin. apply dict_set_keys in Hin. destruct Hin; [congruence | contradiction].
Qed.

Lemma unique_keys_without_uid (uid : string) (d : dict string) :
  unique_keys d -> unique_keys (without_uid uid d).
Proof.
  unfold unique_keys, without_uid. induction d as [|[k v] d IH]; cbn; [trivial|].
  intros Hnd. inversion Hnd as [|? ? Hnot Hnd']; subst.
  destruct (negb (String.eqb v uid)); cbn; [|now apply IH].
  constructor; [|now apply IH].
  intros Hin. apply Hnot. apply in_map_iff in Hin. destruct Hin as [e [He Hin]].
  apply filter_In in Hin. apply in_map_iff. exists e. now split.
Qed.

Lemma dict_get_without_uid (uid k : string) (d : dict string) :
  unique_keys d ->
  dict_get k (without_uid uid d)
    = match dict_get k d with
      | Some v => if String.eqb v uid then None else Some v
      | None => None
      end.
Proof.
  unfold unique_keys, without_uid. induction d as [|[k' v'] d IH]; cbn; [reflexivity|].
  intros Hnd. inversion Hnd as [|? ? Hnot Hnd']; subst.
  destruct (String.eqb_spec k' k) as [->|Hk].
  - destruct (String.eqb v' uid); cbn.
    + apply dict_get_absent. intros Hin. apply Hnot.
      apply in_map_iff in Hin. destruct Hin as [e [He Hin]].
      apply filter_In in Hin. apply in_map_iff. exists e. now split.
    + now rewrite String.eqb_refl.
  - destruct (String.eqb v' uid); cbn.
    + now apply IH.
    + destruct (String.eqb_spec k' k); [congruence|]. now apply IH.
Qed.

(** The three ways a lookup ends: answered by the cache, answered by the
    server and cached, or not found. *)
Lemma get_uid_by_subject_cases (subject : string) (c : IMAPConnection.t) :
  (exists uid, dict_get subject (uid_cache c) = Some uid /\
               get_uid_by_subject subject c = (Ok (Some uid), c)) \/
  (dict_get subject (uid_cache c) = None /\
   get_uid_by_subject subject c
     = (Ok None, with_conn (conn c ++ [SEARCH subject]) c)) \/
  (exists uid, dict_get subject (uid_cache c) = None /\
               get_uid_by_subject subject c
                 = (Ok (Some uid),
                    with_uid_cache (dict_set subject uid (uid_cache c))
                      (with_conn (conn c ++ [SEARCH subject]) c))).
Proof.
  unfold get_uid_by_subject. run.
  destruct (dict_get subject (uid_cache c)) as [uid|] eqn:Hget; cbn.
  - left. now exists uid.
  - right. unfold search_by_subject, conn_uid_search, uid_cache_set. run.
    destruct (search_response (conn c) subject) as [|first others]; cbn;
      [now left|].
    destruct (split " " first) as [|u us]; cbn; [now left|].
    destruct u; destruct us; cbn;
      first [ now left | right; eexists; split; reflexivity ].
Qed.

(** X7. A lookup that finds a UID leaves it in the cache, so that the same
    lookup made again is answered without a command to the server; a lookup
    that finds nothing caches nothing, sends one SEARCH and will search
    again.  A lookup never raises. *)
Theorem lookup_caches_what_it_finds (subject : string) (c : IMAPConnection.t) :
  match get_uid_by_subject subject c with
  | (Ok (Some uid), c1) =>
      get_uid_by_subject subject c1 = (Ok (Some uid), c1) /\
      dict_get subject (uid_cache c1) = Some uid
  | (Ok None, c1) =>
      uid_cache c1 = uid_cache c /\ conn c1 = conn c ++ [SEARCH subject]
  | (Raise _, _) => False
  end.
Proof.
  destruct (get_uid_by_subject_cases subject c)
    as [[uid [Hget ->]] | [[Hget ->] | [uid [Hget ->]]]].
  - split; [|assumption]. unfold get_uid_by_subject. run. now rewrite Hget.
  - now split.
  - assert (Hset : dict_get subject (dict_set subject uid (uid_cache c)) = Some uid)
      by apply dict_get_set_same.
    split; [|exact Hset].
    unfold get_uid_by_subject. run. now rewrite Hset.
Qed.

Lemma string_app_assoc (a b c : string) :
  ((a ++ b) ++ c)%string = (a ++ (b ++ c))%string.
Proof. induction a as [|x a IH]; cbn; [reflexivity | now rewrite IH]. Qed.

Lemma string_app_empty (a : string) : (a ++ "")%string = a.
Proof. induction a as [|x a IH]; cbn; [reflexivity | now rewrite IH]. Qed.

Lemma split_acc_no_sep (sep : ascii) (u : string) :
  has_char sep u = false ->
  forall acc rest,
    split_acc sep acc (u ++ rest) = split_acc sep (acc ++ u) rest.
Proof.
  induction u as [|x u IH]; cbn; intros Hno acc rest.
  - now rewrite string_app_empty.
  - apply orb_false_iff in Hno. destruct Hno as [Hx Hu].
    rewrite Hx, IH by assumption. now rewrite string_app_assoc.
Qed.

(** Splitting at spaces undoes joining with spaces, for words without a
    space. *)
Lemma split_concat (u : string) (us : list string) :
  Forall (fun w => has_char " " w = false) (u :: us) ->
  forall acc, split_acc " " acc (String.concat " " (u :: us)) = (acc ++ u)%string :: us.
Proof.
  revert u. induction us as [|u2 us IH]; intros u Hall acc.
  - cbn [String.concat]. inversion Hall; subst.
    rewrite <- (string_app_empty u) at 1.
    now rewrite split_acc_no_sep.
  - inversion Hall as [|? ? Hu Hrest]; subst.
    change (String.concat " " (u :: u2 :: us))
      with (u ++ String " " (String.concat " " (u2 :: us)))%string.
    rewrite split_acc_no_sep by assumption. cbn [split_acc].
    rewrite Ascii.eqb_refl. f_equal. now rewrite IH.
Qed.

(** X8. When several versions are stored under one name, the lookup takes the
    last UID of the server's answer: with the name not cached and the answer
    listing the UIDs u1 ... un separated by spaces, the lookup returns un and
    caches it. *)
Theorem lookup_takes_last_uid
        (subject : string) (c : IMAPConnection.t)
        (uid : string) (uids others : list string) :
  dict_get subject (uid_cache c) = None ->
  Forall (fun w => has_char " " w = false) (uid :: uids) ->
  uid :: uids <> [EmptyString] ->
  search_response (conn c) subject = String.concat " " (uid :: uids) :: others ->
  get_uid_by_subject subject c
    = (Ok (Some (last uids uid)),
       with_uid_cache (dict_set subject (last uids uid) (uid_cache c))
         (with_conn (conn c ++ [SEARCH subject]) c)).
Proof.
  intros Hmiss Hwords Hblank Hanswer.
  unfold get_uid_by_subject. run. rewrite Hmiss.
  unfold search_by_subject, conn_uid_search, uid_cache_set. run.
  rewrite Hanswer. unfold split. rewrite split_concat by assumption. cbn.
  destruct uid; destruct uids; cbn; try reflexivity. congruence.
Qed.

Lemma dict_remove_app_unique (k v : string) (front rest : dict string) :
  unique_keys (front ++ (k, v) :: rest) ->
  dict_remove k (front ++ (k, v) :: rest) = front ++ rest.
Proof.
  unfold unique_keys. induction front as [|[k' v'] front IH]; cbn; intros Hnd.
  - now rewrite String.eqb_refl.
  - inversion Hnd as [|? ? Hnot Hnd']; subst.
    destruct (String.eqb_spec k' k) as [->|_].
    + exfalso. apply Hnot. rewrite map_app. apply in_or_app. right. now left.
    + now rewrite IH.
Qed.

Lemma unique_keys_drop (k v : string) (front rest : dict string) :
  unique_keys (front ++ (k, v) :: rest) -> unique_keys (front ++ rest).
Proof.
  unfold unique_keys. rewrite !map_app. cbn. apply NoDup_remove_1.
Qed.

Lemma purge_copy_filters (uid : string) (rest : list (string * string)) :
  forall (front : dict string) (c : IMAPConnection.t),
    uid_cache c = front ++ rest ->
    unique_keys (front ++ rest) ->
    purge_copy uid rest c
      = (Ok tt, with_uid_cache (front ++ without_uid uid rest) c).
Proof.
  induction rest as [|[subject s_uid] rest IH]; intros front c Hc Hu; cbn.
  - rewrite app_nil_r in *. unfold ret. f_equal.
    destruct c; cbn in *; now subst.
  - destruct (String.eqb s_uid uid) eqn:E; cbn.
    + destruct (dict_get_app subject s_uid front rest) as [v Hv].
      unfold bind, uid_cache_pop. rewrite Hc, Hv.
      rewrite dict_remove_app_unique by assumption.
      rewrite (IH front); [reflexivity | reflexivity |].
      now apply unique_keys_drop in Hu.
    + rewrite (IH (front ++ [(subject, s_uid)])).
      * now rewrite <- app_assoc.
      * now rewrite <- app_assoc.
      * now rewrite <- app_assoc.
Qed.

Lemma holds_uid_without (uid : string) (d : dict string) :
  holds_uid uid (without_uid uid d) = false.
Proof.
  unfold holds_uid, without_uid. induction d as [|[k v] d IH]; cbn; [reflexivity|].
  destruct (String.eqb v uid) eqn:E; cbn; [assumption|].
  now rewrite E.
Qed.

Lemma delete_message_run (uid : string) (c : IMAPConnection.t) :
  unique_keys (uid_cache c) ->
  delete_message uid c
    = (Ok tt, mk (conn c ++ [STORE_DELETED uid]) (mailbox c)
                 (without_uid uid (uid_cache c))).
Proof.
  intros Hu. unfold delete_message, conn_uid_store_deleted. run.
  now rewrite (purge_copy_filters uid (uid_cache c) []).
Qed.

(** X9. [delete_message] flags the UID deleted and forgets it: it sends one
    STORE command, removes from the cache exactly the entries mapped to that
    UID, keeps the others in their order, and does not raise. *)
Theorem delete_message_forgets_uid (uid : string) (c : IMAPConnection.t) :
  unique_keys (uid_cache c) ->
  delete_message uid c
    = (Ok tt, mk (conn c ++ [STORE_DELETED uid]) (mailbox c)
                 (without_uid uid (uid_cache c))) /\
  holds_uid uid (without_uid uid (uid_cache c)) = false /\
  forall subject other,
    other <> uid ->
    dict_get subject (uid_cache c) = Some other ->
    dict_get subject (without_uid uid (uid_cache c)) = Some other.
Proof.
  intros Hu. split; [|split].
  - now apply delete_message_run.
  - apply holds_uid_without.
  - intros subject other Hne Hget.
    rewrite dict_get_without_uid, Hget by assumption.
    destruct (String.eqb_spec other uid); [contradiction | reflexivity].
Qed.

Lemma put_message_run (subject : string) (data : bytes) (c : IMAPConnection.t) :
  unique_keys (uid_cache c) ->
  exists c',
    put_message subject data c = (Ok tt, c') /\
    dict_get subject (uid_cache c') = append_response (conn c) subject data /\
    unique_keys (uid_cache c').
Proof.
  intros Hu.
  unfold put_message, conn_append, uid_cache_set, uid_cache_pop, dict_mem. run.
  destruct (dict_get subject (uid_cache c)) eqn:Hget; cbn.
  - rewrite Hget. cbn.
    destruct (append_response (conn c) subject data) as [new_uid|]; cbn;
      eexists; (split; [reflexivity|]); cbn.
    + split; [apply dict_get_set_same|].
      now apply unique_keys_set, unique_keys_remove.
    + split; [now apply dict_get_remove_same|].
      now apply unique_keys_remove.
  - destruct (append_response (conn c) subject data) as [new_uid|]; cbn;
      eexists; (split; [reflexivity|]); cbn.
    + split; [apply dict_get_set_same|]. now apply unique_keys_set.
    + now split.
Qed.

(** X10. [put_message] drops the cached UID of the subject before it sends
    the APPEND, and afterwards the cache holds for the subject exactly what
    the server reported for the new message: its UID, or nothing.  The other
    subjects keep their entries, and nothing is raised. *)
Theorem put_message_recaches (subject : string) (data : bytes) (c : IMAPConnection.t) :
  unique_keys (uid_cache c) ->
  exists c',
    put_message subject data c = (Ok tt, c') /\
    conn c' = conn c ++ [APPEND subject data] /\
    dict_get subject (uid_cache c') = append_response (conn c) subject data /\
    (forall other, other <> subject ->
                   dict_get other (uid_cache c') = dict_get other (uid_cache c)) /\
    unique_keys (uid_cache c').
Proof.
  intros Hu.
  unfold put_message, conn_append, uid_cache_set, uid_cache_pop, dict_mem. run.
  destruct (dict_get subject (uid_cache c)) eqn:Hget; cbn.
  - rewrite Hget. cbn.
    destruct (append_response (conn c) subject data) as [new_uid|]; cbn;
      eexists; (split; [reflexivity|]); cbn; (split; [reflexivity|]).
    + split; [apply dict_get_set_same|]. split.
      * intros other Hne. rewrite dict_get_set_other, dict_get_remove_other; trivial.
      * now apply unique_keys_set, unique_keys_remove.
    + split; [now apply dict_get_remove_same|]. split.
      * intros other Hne. now apply dict_get_remove_other.
      * now apply unique_keys_remove.
  - destruct (append_response (conn c) subject data) as [new_uid|]; cbn;
      eexists; (split; [reflexivity|]); cbn; (split; [reflexivity|]).
    + split; [apply dict_get_set_same|]. split.
      * intros other Hne. now apply dict_get_set_other.
      * now apply unique_keys_set.
    + split; [assumption|]. now split.
Qed.

(** X11. What [get_message] gives for a UID.  For the empty UID: [None],
    with no command sent.  For any other UID, whenever the list handed back
    for the FETCH is not empty (and [imaplib] hands back no empty list): one
    FETCH is sent, the cache is left as it was, and the result is never
    [None]; it is the bytes of the literal when the answer starts with a
    pair, and [TypeError] when it starts with [None], which is the answer for
    a UID the server does not have. *)
Theorem get_message_outcome (uid : string) (c : IMAPConnection.t) :
  uid <> EmptyString ->
  fetch_response (conn c) uid <> [] ->
  get_message EmptyString c = (Ok None, c) /\
  exists r,
    get_message uid c = (r, with_conn (conn c ++ [FETCH uid]) c) /\
    r <> Ok None /\
    (forall rest,
        fetch_response (conn c) uid = NoData :: rest -> r = Raise TypeError) /\
    (forall data rest,
        fetch_response (conn c) uid = Literal (Some data) :: rest ->
        r = Ok (Some data)).
Proof.
  intros Huid Hanswer. split; [reflexivity|].
  unfold get_message.
  destruct (String.eqb_spec uid EmptyString) as [|_]; [contradiction|].
  unfold conn_uid_fetch. run.
  destruct (fetch_response (conn c) uid) as [|[|text|[data|]] rest]; cbn.
  - contradiction.
  - eexists. split; [reflexivity|]. repeat split; try discriminate.
  - destruct (len text <? 2); eexists; (split; [reflexivity|]);
      repeat split; discriminate.
  - eexists. split; [reflexivity|]. repeat split; try discriminate.
    now intros d r [= ->].
  - eexists. split; [reflexivity|]. repeat split; discriminate.
Qed.

Lemma unique_keys_after_lookup (subject : string) (c c1 : IMAPConnection.t)
      (old : option string) :
  unique_keys (uid_cache c) ->
  get_uid_by_subject subject c = (Ok old, c1) ->
  unique_keys (uid_cache c1) /\
  conn c1 = conn c ++ lookup_commands subject c /\
  dict_get subject (uid_cache c1) = old.
Proof.
  intros Hu Hlookup. unfold lookup_commands, dict_mem.
  destruct (get_uid_by_subject_cases subject c)
    as [[uid [Hget Heq]] | [[Hget Heq] | [uid [Hget Heq]]]];
    rewrite Heq in Hlookup; injection Hlookup as <- <-; rewrite Hget; cbn.
  - now rewrite app_nil_r.
  - now split.
  - split; [now apply unique_keys_set|]. split; [reflexivity|].
    apply dict_get_set_same.
Qed.

(** X12. How [Message.open] ends.  It raises [IOError] when the lookup gives
    no UID or an empty one.  With a UID it sends one FETCH: when the answer
    starts with a pair it returns a clean blob of the literal's bytes, cursor
    at 0; when it starts with [None] (the server does not have the message
    of the UID) it raises [TypeError], and the UID is still cached under the
    name, so that the next call ends the same way.  Whatever else the answer
    is, the call raises, and never [IOError]: the [IOError] written for a
    fetch that finds nothing is not reached. *)
Theorem open_outcome (name : string) (c : IMAPConnection.t) :
  match get_uid_by_subject name c with
  | (Ok (Some uid), c1) =>
      if String.eqb uid EmptyString
      then Message.open name c = (Raise IOError, c1)
      else
        match fetch_response (conn c1) uid with
        | Literal (Some data) :: _ =>
            Message.open name c
              = (Ok (Message.mk name data false 0 false),
                 with_conn (conn c1 ++ [FETCH uid]) c1)
        | NoData :: _ =>
            Message.open name c
              = (Raise TypeError, with_conn (conn c1 ++ [FETCH uid]) c1) /\
            dict_get name (uid_cache c1) = Some uid
        | _ => exists e, fst (Message.open name c) = Raise e /\ e <> IOError
        end
  | (_, c1) => Message.open name c = (Raise IOError, c1)
  end.
Proof.
  assert (Hopen : forall uid c1,
             get_uid_by_subject name c = (Ok (Some uid), c1) ->
             dict_get name (uid_cache c1) = Some uid ->
             if String.eqb uid EmptyString
             then Message.open name c = (Raise IOError, c1)
             else
               match fetch_response (conn c1) uid with
               | Literal (Some data) :: _ =>
                   Message.open name c
                     = (Ok (Message.mk name data false 0 false),
                        with_conn (conn c1 ++ [FETCH uid]) c1)
               | NoData :: _ =>
                   Message.open name c
                     = (Raise TypeError, with_conn (conn c1 ++ [FETCH uid]) c1) /\
                   dict_get name (uid_cache c1) = Some uid
               | _ => exists e, fst (Message.open name c) = Raise e /\ e <> IOError
               end).
  { intros uid c1 Hlookup Hcached.
    assert (Hrun : Message.open name c
                   = if String.eqb uid EmptyString then (Raise IOError, c1)
                     else match get_message uid c1 with
                          | (Ok (Some data), c2) => (Ok (Message.init name data), c2)
                          | (Ok None, c2) => (Raise IOError, c2)
                          | (Raise e, c2) => (Raise e, c2)
                          end).
    { unfold Message.open, bind. rewrite Hlookup. cbn [truthy negb].
      destruct (String.eqb uid EmptyString); cbn [negb]; [reflexivity|].
      destruct (get_message uid c1) as [[[data|]|e] c2]; reflexivity. }
    rewrite Hrun. clear Hrun.
    destruct (String.eqb_spec uid EmptyString) as [|Hne]; [reflexivity|].
    destruct (fetch_response (conn c1) uid) as [|[|text|[data|]] rest] eqn:Hfetch.
    - assert (Hin : exists subject, In (subject, uid) (uid_cache c1))
        by (exists name; now apply dict_get_In).
      destruct (get_message_purge_raises uid c1 Hne Hfetch Hin) as [c' ->].
      exists RuntimeError. split; [reflexivity|discriminate].
    - split; [|assumption].
      now rewrite (get_message_no_data uid c1 rest).
    - unfold get_message.
      destruct (String.eqb_spec uid EmptyString) as [|_]; [contradiction|].
      unfold conn_uid_fetch. run. rewrite Hfetch. cbn.
      destruct (len text <? 2); eexists; (split; [reflexivity|discriminate]).
    - unfold get_message.
      destruct (String.eqb_spec uid EmptyString) as [|_]; [contradiction|].
      unfold conn_uid_fetch. run. now rewrite Hfetch.
    - unfold get_message.
      destruct (String.eqb_spec uid EmptyString) as [|_]; [contradiction|].
      unfold conn_uid_fetch. run. rewrite Hfetch. cbn.
      eexists; (split; [reflexivity|discriminate]). }
  destruct (get_uid_by_subject_cases name c)
    as [[uid [Hget Heq]] | [[Hget Heq] | [uid [Hget Heq]]]].
  - rewrite Heq. apply Hopen; assumption.
  - rewrite Heq. unfold Message.open, bind. now rewrite Heq.
  - rewrite Heq. apply Hopen; [assumption|]. apply dict_get_set_same.
Qed.

(** X13. [Message.unlink] does not raise.  It sends a STORE for the current
    version exactly when the lookup gave one, and then the name is no longer
    in the cache, so that the next lookup asks the server again. *)
Theorem unlink_outcome (name : string) (c : IMAPConnection.t) :
  unique_keys (uid_cache c) ->
  exists (old : option string) (c1 c' : IMAPConnection.t),
    get_uid_by_subject name c = (Ok old, c1) /\
    Message.unlink name c = (Ok tt, c') /\
    conn c' = conn c ++ lookup_commands name c ++ retire_commands old /\
    (old <> Some EmptyString -> dict_get name (uid_cache c') = None) /\
    unique_keys (uid_cache c').
Proof.
  intros Hu.
  destruct (get_uid_by_subject_total name c) as [old [c1 [Hlookup _]]].
  destruct (unique_keys_after_lookup name c c1 old Hu Hlookup) as [Hu1 [Hconn Hget]].
  exists old, c1. unfold Message.unlink, bind. rewrite Hlookup.
  destruct old as [uid|]; cbn [truthy negb retire_commands].
  - destruct (String.eqb_spec uid EmptyString) as [->|Hne]; cbn [negb].
    + exists c1. unfold ret. repeat split; trivial.
      * now rewrite app_nil_r.
      * congruence.
    + rewrite delete_message_run by assumption.
      eexists. split; [reflexivity|]. split; [reflexivity|]. cbn. split; [|split].
      * now rewrite Hconn, <- app_assoc.
      * intros _. rewrite dict_get_without_uid, Hget by assumption.
        now rewrite String.eqb_refl.
      * now apply unique_keys_without_uid.
  - exists c1. unfold ret. repeat split; trivial.
    now rewrite app_nil_r.
Qed.

(** X14. Where a flush leaves the cache.  After the flush of a dirty blob
    the cache maps the name of the blob to the UID the server reported for
    the new version, so the next lookup sends nothing; it holds no entry for
    the name when the server reported no UID, or reported the UID of the
    version just retired. *)
Theorem flush_recaches (m : Message.t) (c : IMAPConnection.t) :
  unique_keys (uid_cache c) ->
  Message.dirty m = true ->
  exists (old : option string) (c1 c' : IMAPConnection.t),
    get_uid_by_subject (Message.name m) c = (Ok old, c1) /\
    Message.flush m c = (Ok (Message.with_dirty false m), c') /\
    dict_get (Message.name m) (uid_cache c')
      = match append_response (conn c1) (Message.name m) (Message.data m) with
        | None => None
        | Some new_uid =>
            match old with
            | Some uid =>
                if truthy old && String.eqb new_uid uid then None else Some new_uid
            | None => Some new_uid
            end
        end /\
    unique_keys (uid_cache c').
Proof.
  intros Hu Hdirty.
  destruct (get_uid_by_subject_total (Message.name m) c) as [old [c1 [Hlookup _]]].
  destruct (unique_keys_after_lookup _ c c1 old Hu Hlookup) as [Hu1 _].
  destruct (put_message_run (Message.name m) (Message.data m) c1 Hu1)
    as [c2 [Hput [Hget2 Hu2]]].
  exists old, c1. unfold Message.flush. rewrite Hdirty.
  unfold bind at 1. rewrite Hlookup. unfold bind at 1. rewrite Hput.
  destruct old as [uid|].
  - destruct (truthy (Some uid)) eqn:Htruthy; cbn [andb].
    + unfold bind, ret. rewrite (delete_message_run uid c2 Hu2).
      eexists. split; [reflexivity|]. split; [reflexivity|]. cbn. split.
      * rewrite dict_get_without_uid, Hget2 by assumption.
        destruct (append_response (conn c1) (Message.name m) (Message.data m));
          reflexivity.
      * now apply unique_keys_without_uid.
    + exists c2. unfold bind, ret. split; [reflexivity|]. split; [reflexivity|].
      split; [|assumption]. rewrite Hget2.
      destruct (append_response (conn c1) (Message.name m) (Message.data m));
        reflexivity.
  - exists c2. unfold bind, ret. split; [reflexivity|]. split; [reflexivity|].
    split; [|assumption]. rewrite Hget2.
    destruct (append_response (conn c1) (Message.name m) (Message.data m));
      reflexivity.
Qed.

End StoreCache.

Lemma get_message_outcome_witness :
  IMAPConnection.get_message (server := Mailbox.server) "5" Scenario.stale_connection
    = (Raise TypeError, IMAPConnection.mk [FETCH "5"] "INBOX" [("n", "5")]%string).
Proof.
  destruct (get_message_outcome (server := Mailbox.server) "5" Scenario.stale_connection)
    as [_ [r [Hrun [_ [Hmissing _]]]]].
  - discriminate.
  - discriminate.
  - rewrite Hrun, (Hmissing []); reflexivity.
Defined.

Lemma unlink_outcome_witness :
  Message.unlink (server := Mailbox.server) "n" cached_connection
    = (Ok tt, IMAPConnection.mk [APPEND "n" ["o"; "l"; "d"]%byte; STORE_DELETED "1"]
                                "INBOX" []).
Proof.
  destruct (unlink_outcome (server := Mailbox.server) "n" cached_connection)
    as [old [c1 [c' [_ [Hunlink _]]]]].
  - unfold unique_keys. cbn. repeat constructor. intros [].
  - rewrite Hunlink. vm_compute in Hunlink. congruence.
Defined.

Lemma flush_recaches_witness :
  exists c',
    Message.flush (server := Mailbox.server)
      (Message.mk "n" ["n"; "e"; "w"]%byte true 0 false) cached_connection
      = (Ok (Message.mk "n" ["n"; "e"; "w"]%byte false 0 false), c') /\
    dict_get "n" (IMAPConnection.uid_cache c') = Some "2"%string.
Proof.
  destruct (flush_recaches (server := Mailbox.server)
              (Message.mk "n" ["n"; "e"; "w"]%byte true 0 false) cached_connection)
    as [old [c1 [c' [Hlookup [Hflush [Hget _]]]]]].
  - unfold unique_keys. cbn. repeat constructor. intros [].
  - reflexivity.
  - exists c'. split; [exact Hflush|].
    vm_compute in Hlookup. injection Hlookup as <- <-. exact Hget.
Defined.

Lemma lookup_takes_last_uid_witness :
  fst (IMAPConnection.get_uid_by_subject (server := Mailbox.server) "n" twice_stored) = Ok (Some "2"%string).
Proof.
  rewrite (lookup_takes_last_uid (server := Mailbox.server)
             "n" twice_stored "1" ["2"%string] []).
  - reflexivity.
  - reflexivity.
  - repeat constructor.
  - discriminate.
  - reflexivity.
Defined.

Lemma delete_message_forgets_uid_witness :
  IMAPConnection.delete_message "1"
    (IMAPConnection.mk [] "INBOX" [("a", "1"); ("b", "2"); ("c", "1")]%string)
  = (Ok tt, IMAPConnection.mk [STORE_DELETED "1"] "INBOX" [("b", "2")]%string).
Proof.
  destruct (delete_message_forgets_uid "1"
              (IMAPConnection.mk [] "INBOX" [("a", "1"); ("b", "2"); ("c", "1")]%string))
    as [H _].
  - unfold unique_keys. cbn.
    repeat constructor; cbn; intuition discriminate.
  - exact H.
Defined.

Lemma put_message_recaches_witness :
  exists c',
    IMAPConnection.put_message (server := Mailbox.server) "n" ["n"; "e"; "w"]%byte cached_connection
      = (Ok tt, c') /\
    dict_get "n" (IMAPConnection.uid_cache c') = Some "2"%string.
Proof.
  destruct (put_message_recaches (server := Mailbox.server)
              "n" ["n"; "e"; "w"]%byte cached_connection)
    as [c' [Hput [_ [Hget _]]]].
  - unfold unique_keys. cbn. repeat constructor. intros [].
  - exists c'. split; [exact Hput | exact Hget].
Defined.

(** ** Further properties of the resolver *)

Section Paths.

Lemma rpartition_none (sep : ascii) (s : string) :
  rpartition sep s = None <-> has_char sep s = false.
Proof.
  induction s as [|x s IH]; cbn; [tauto|].
  destruct (rpartition sep s) as [[h t]|].
  - split; [discriminate|]. intros H. apply orb_false_iff in H.
    destruct H as [_ H]. apply IH in H. discriminate.
  - destruct (Ascii.eqb x sep); cbn; [split; discriminate|].
    split; intros _; [now apply IH | reflexivity].
Qed.

Lemma rpartition_some (sep : ascii) (s h t : string) :
  rpartition sep s = Some (h, t) ->
  s = (h ++ String sep t)%string /\ has_char sep t = false.
Proof.
  revert h t. induction s as [|x s IH]; cbn; intros h t; [discriminate|].
  destruct (rpartition sep s) as [[h' t']|] eqn:E.
  - intros [= <- <-]. destruct (IH h' t' eq_refl) as [-> Hno]. now split.
  - destruct (Ascii.eqb_spec x sep) as [->|]; [|discriminate].
    intros [= <- <-]. split; [reflexivity|]. now apply rpartition_none.
Qed.

(** X15. [get_path_parent] and [get_path_filename] cut a path at its last
    slash: put together again with a slash they give the path back, and the
    file name holds no slash.  A path without a slash has the empty parent
    and is its own file name. *)
Theorem path_parent_and_filename (path : string) :
  (if has_char "/" path
   then (IMAPFS.get_path_parent path ++ String "/" (IMAPFS.get_path_filename path))%string
        = path
   else IMAPFS.get_path_parent path = EmptyString /\
        IMAPFS.get_path_filename path = path) /\
  has_char "/" (IMAPFS.get_path_filename path) = false.
Proof.
  unfold IMAPFS.get_path_parent, IMAPFS.get_path_filename,
    rpartition_head, rpartition_tail.
  destruct (rpartition "/" path) as [[h t]|] eqn:E.
  - destruct (rpartition_some _ _ _ _ E) as [Hpath Hno].
    destruct (has_char "/" path) eqn:Hhas.
    + now split.
    + apply rpartition_none in Hhas. congruence.
  - apply rpartition_none in E. rewrite E. now repeat split.
Qed.

Context {server : Server} {env : Surroundings}.

Lemma walk_skips_blank_parts (parts : list string) :
  forall (current_node : option nat) (fs : IMAPFS.t),
    IMAPFS.walk parts current_node fs
      = IMAPFS.walk (filter nonblank parts) current_node fs.
Proof.
  induction parts as [|part rest IH]; intros cur fs; [reflexivity|].
  cbn [filter IMAPFS.walk]. unfold nonblank at 1.
  destruct (String.eqb part EmptyString) eqn:E; cbn [negb]; [apply IH|].
  cbn [IMAPFS.walk]. rewrite E.
  destruct cur as [r|]; [|reflexivity].
  unfold bind. destruct (IMAPFS.object r fs) as [[[f|d]|e] fs1]; try reflexivity.
  destruct (Directory.get_child_by_name part d) as [child_key|]; [|reflexivity].
  destruct (String.eqb child_key EmptyString); [reflexivity|].
  destruct (IMAPFS.open_node child_key fs1) as [[[child|]|e] fs2]; try reflexivity.
  apply IH.
Qed.

(** X16. Blank parts of a path do not count: two paths (other than the
    literal "/") that have the same non-empty parts between their slashes,
    such as "//a/b/" and "a/b", resolve alike, to the same result and the
    same state. *)
Theorem resolution_ignores_blank_parts (path path' : string) (fs : IMAPFS.t) :
  path <> "/"%string -> path' <> "/"%string ->
  filter nonblank (split "/" path) = filter nonblank (split "/" path') ->
  IMAPFS.get_node_by_path path fs = IMAPFS.get_node_by_path path' fs.
Proof.
  intros Hp Hp' Hparts. unfold IMAPFS.get_node_by_path.
  destruct (String.eqb_spec path "/"); [contradiction|].
  destruct (String.eqb_spec path' "/"); [contradiction|].
  unfold bind. destruct (IMAPFS.open_node IMAPFS.ROOT fs) as [[cur|e] fs1];
    [|reflexivity].
  rewrite (walk_skips_blank_parts (split "/" path)).
  rewrite (walk_skips_blank_parts (split "/" path')).
  now rewrite Hparts.
Qed.

Local Ltac run := unfold bind, ret, gets, modify, raise; cbn.

(** What [open_node] leaves behind, by the way it ends. *)
Lemma open_node_cache_entry (name : string) (fs : IMAPFS.t) :
  match IMAPFS.open_node name fs with
  | (Ok (Some r), fs1) => dict_get name (IMAPFS.open_nodes fs1) = Some r
  | (Ok None, fs1) | (Raise _, fs1) =>
      IMAPFS.open_nodes fs1 = IMAPFS.open_nodes fs /\
      IMAPFS.objects fs1 = IMAPFS.objects fs
  end.
Proof.
  destruct (dict_get name (IMAPFS.open_nodes fs)) as [obj|] eqn:Hcache.
  - now rewrite (open_node_cached name obj fs Hcache).
  - unfold IMAPFS.open_node. run. rewrite Hcache.
    unfold try_except, IMAPFS.on_imap, zoom. run.
    destruct (Message.open name (IMAPFS.imap fs)) as [[msg|e] c]; cbn;
      [|now split].
    destruct (Message.data msg) as [|b rest] eqn:Hdata; cbn; [now split|].
    unfold IMAPFS.of_result.
    destruct (Byte.eqb b "f"); cbn.
    + destruct (File.from_message msg); cbn; [|now split].
      apply dict_get_set_same.
    + destruct (Byte.eqb b "d"); cbn; [|now split].
      destruct (Directory.from_message msg); cbn; [|now split].
      apply dict_get_set_same.
Qed.

(** X17. The node cache answers the second time: when [open_node] returns a
    node, the node is registered under its name and the same call made again
    returns the same object without touching the store or the state.  When
    it returns [None] or raises, no node has been registered or created. *)
Theorem open_node_registers_what_it_opens (name : string) (fs : IMAPFS.t) :
  match IMAPFS.open_node name fs with
  | (Ok (Some r), fs1) =>
      dict_get name (IMAPFS.open_nodes fs1) = Some r /\
      IMAPFS.open_node name fs1 = (Ok (Some r), fs1)
  | (Ok None, fs1) | (Raise _, fs1) =>
      IMAPFS.open_nodes fs1 = IMAPFS.open_nodes fs /\
      IMAPFS.objects fs1 = IMAPFS.objects fs
  end.
Proof.
  pose proof (open_node_cache_entry name fs) as H.
  destruct (IMAPFS.open_node name fs) as [[[r|]|e] fs1]; try exact H.
  split; [exact H | now apply open_node_cached].
Qed.

Lemma walk_result_registered (parts : list string) :
  forall (current_node : option nat) (fs fs' : IMAPFS.t) (r' : nat),
    (forall r, current_node = Some r ->
               exists name, dict_get name (IMAPFS.open_nodes fs) = Some r) ->
    IMAPFS.walk parts current_node fs = (Ok (Some r'), fs') ->
    exists name, dict_get name (IMAPFS.open_nodes fs') = Some r'.
Proof.
  induction parts as [|part rest IH]; intros cur fs fs' r' Hcur Hwalk.
  - cbn in Hwalk. injection Hwalk as -> ->. now apply Hcur.
  - cbn [IMAPFS.walk] in Hwalk.
    destruct (String.eqb part EmptyString); [now apply (IH cur fs)|].
    destruct cur as [r|]; [|discriminate].
    unfold bind, IMAPFS.object in Hwalk.
    destruct (nth_error (IMAPFS.objects fs) r) as [[f|d]|]; try discriminate.
    + injection Hwalk as <- <-. now apply Hcur.
    + destruct (Directory.get_child_by_name part d) as [child_key|];
        [|discriminate].
      destruct (String.eqb child_key EmptyString); [discriminate|].
      pose proof (open_node_cache_entry child_key fs) as Hentry.
      destruct (IMAPFS.open_node child_key fs) as [[[child|]|e] fs2];
        try discriminate.
      apply (IH (Some child) fs2); [|assumption].
      intros r0 [= <-]. exists child_key. exact Hentry.
Qed.

(** X18. A node that path resolution hands out is registered in
    [open_nodes]: whenever [get_node_by_path] returns a node, some name of
    the node cache maps to that very object. *)
Theorem resolved_node_is_registered
        (path : string) (fs fs' : IMAPFS.t) (r : nat) :
  IMAPFS.get_node_by_path path fs = (Ok (Some r), fs') ->
  exists name, dict_get name (IMAPFS.open_nodes fs') = Some r.
Proof.
  unfold IMAPFS.get_node_by_path.
  pose proof (open_node_cache_entry IMAPFS.ROOT fs) as Hroot.
  destruct (String.eqb path "/").
  - intros Hopen. rewrite Hopen in Hroot. exists IMAPFS.ROOT. exact Hroot.
  - unfold bind.
    destruct (IMAPFS.open_node IMAPFS.ROOT fs) as [[cur|e] fs1]; [|discriminate].
    apply walk_result_registered.
    intros r0 ->. exists IMAPFS.ROOT. exact Hroot.
Qed.

End Paths.

Lemma resolution_ignores_blank_parts_witness :
  Scenario.get_node_by_path "//f/" Scenario.session
    = Scenario.get_node_by_path "f" Scenario.session.
Proof.
  apply (resolution_ignores_blank_parts
           (server := Mailbox.server) (env := Mailbox.surroundings)
           "//f/" "f" Scenario.session).
  - discriminate.
  - discriminate.
  - reflexivity.
Defined.

Lemma resolved_node_is_registered_witness :
  exists name,
    dict_get name
      (IMAPFS.open_nodes (snd (Scenario.get_node_by_path "/f" Scenario.session)))
    = Some 1%nat.
Proof.
  apply (resolved_node_is_registered
           (server := Mailbox.server) (env := Mailbox.surroundings)
           "/f" Scenario.session).
  vm_compute. reflexivity.
Defined.

(** ** Reading at a cursor *)

Section ReadAtCursor.

Context {server : Server} {env : Surroundings}.

(** C8 (as stated, refuted).  At cursor -3 of the four bytes "abcd" a read
    with no length returns "bcd", and a read of 3 bytes returns nothing: the
    read does not clamp to the bytes available at every cursor position. *)
Lemma read_at_negative_cursor_is_not_clamped :
  fst (Message.read None (Message.seek (-3) Message.SEEK_SET Scenario.blob4))
    = ["b"; "c"; "d"]%byte /\
  fst (Message.read (Some 3) (Message.seek (-3) Message.SEEK_SET Scenario.blob4))
    = [] /\
  ~ read_clamps_at_every_cursor.
Proof.
  split; [reflexivity|]. split; [reflexivity|].
  intros Hclaim.
  specialize (Hclaim (Message.seek (-3) Message.SEEK_SET Scenario.blob4) 3).
  vm_compute in Hclaim. specialize (Hclaim (fun H => match H with eq_refl => I end)).
  discriminate.
Qed.

(** C8 (amended).  With the cursor at p >= 0: a read with no length returns
    all bytes from p to the end of the data and leaves the cursor at
    max(p, len); a read with a length never fails and returns the first
    [size] of those bytes, or all of them when there are fewer, so
    min(size, max(0, len - p)) bytes, and leaves the cursor at
    min(p + size, len).  With the cursor at p < 0 the cursor counts from the
    end as a Python index does: a read with no length returns the bytes from
    index max(len + p, 0) on, and a read with a length the bytes between that
    index and the index where the slice stops, which need not be the bytes
    available.  The dispatcher's [read] on a file returns the requested range
    of the content, and fewer bytes than asked for only when the range
    reaches the end of the content. *)
Theorem read_clamps_from_cursor
        (m : Message.t) (size offset : Z) (path : string)
        (fs fs1 : IMAPFS.t) (r : nat) (f : File.t) :
  0 <= size -> 0 <= offset ->
  IMAPFS.get_node_by_path path fs = (Ok (Some r), fs1) ->
  nth_error (IMAPFS.objects fs1) r = Some (AFile f) ->
  (0 <= Message.pos m ->
   Message.read None m
     = (skipn (Z.to_nat (Message.pos m)) (Message.data m),
        Message.with_pos (Z.max (Message.pos m) (len (Message.data m))) m) /\
   Message.read (Some size) m
     = (firstn (Z.to_nat size) (skipn (Z.to_nat (Message.pos m)) (Message.data m)),
        Message.with_pos (Z.min (Message.pos m + size) (len (Message.data m))) m) /\
   fst (Message.read (Some size) m)
     = firstn (Z.to_nat size) (fst (Message.read None m)) /\
   len (fst (Message.read (Some size) m))
     = Z.min size (Z.max 0 (len (Message.data m) - Message.pos m))) /\
  (Message.pos m < 0 ->
   let start := Z.max (Message.pos m + len (Message.data m)) 0 in
   let stop :=
     if len (Message.data m) <? size + Message.pos m then len (Message.data m)
     else if Message.pos m + size <? 0
          then Z.max (Message.pos m + size + len (Message.data m)) 0
          else Message.pos m + size in
   fst (Message.read None m) = skipn (Z.to_nat start) (Message.data m) /\
   fst (Message.read (Some size) m)
     = firstn (Z.to_nat (stop - start)) (skipn (Z.to_nat start) (Message.data m)) /\
   Message.pos (snd (Message.read (Some size) m))
     = (if len (Message.data m) <? size + Message.pos m
        then len (Message.data m) else Message.pos m + size) /\
   Message.data (snd (Message.read (Some size) m)) = Message.data m) /\
  exists (buf : bytes) (fs2 : IMAPFS.t),
    IMAPFS.read path size offset fs = (Ok (RStr buf), fs2) /\
    buf = firstn (Z.to_nat size) (skipn (Z.to_nat offset) (File.content f)) /\
    len buf <= size /\
    (len buf < size -> File.size f <= offset + len buf).
Proof.
  intros Hsize Hoffset Hget Hobj.
  pose proof (len_nonneg (Message.data m)) as HL.
  split; [|split].
  - intros Hpos.
    assert (Hnone : Message.read None m
                    = (skipn (Z.to_nat (Message.pos m)) (Message.data m),
                       Message.with_pos (Z.max (Message.pos m) (len (Message.data m))) m)).
    { cbn [Message.read]. rewrite slice_from by assumption. f_equal. f_equal.
      unfold len in *. rewrite length_skipn. lia. }
    rewrite Hnone, read_sized by assumption. cbn [fst].
    repeat split.
    unfold len. rewrite length_firstn, length_skipn. lia.
  - intros Hneg start stop. subst start stop. repeat split.
    + cbn [Message.read fst]. rewrite slice_to_end. unfold adjust.
      destruct (Z.ltb_spec (Message.pos m) 0); [reflexivity | lia].
    + unfold Message.read. cbn [fst]. unfold slice, bound, adjust.
      destruct (Z.ltb_spec (Message.pos m) 0); [|lia].
      destruct (Z.ltb_spec (len (Message.data m)) (size + Message.pos m)).
      * replace (Message.pos m + (len (Message.data m) - Message.pos m))
          with (len (Message.data m)) by lia.
        destruct (Z.ltb_spec (len (Message.data m)) 0); [lia|].
        now rewrite Z.min_id.
      * destruct (Z.ltb_spec (Message.pos m + size) 0); [reflexivity|].
        now rewrite Z.min_l by lia.
    + unfold Message.read.
      destruct (Z.ltb_spec (len (Message.data m)) (size + Message.pos m));
        cbn; lia.
  - unfold IMAPFS.read, bind. rewrite Hget.
    unfold IMAPFS.object. rewrite Hobj.
    unfold File.read, File.seek. cbn [File.message].
    pose proof (read_sized_from_cursor
                  (Message.seek (offset + 1) Message.SEEK_SET (File.message f)) size)
      as Hread.
    destruct (Message.read (Some size)
                (Message.seek (offset + 1) Message.SEEK_SET (File.message f)))
      as [buf msg].
    cbn in Hread. rewrite Hread by lia.
    replace (Z.to_nat (offset + 1)) with (Z.to_nat offset + 1)%nat by lia.
    rewrite <- skipn_skipn. fold (File.content f).
    unfold IMAPFS.set_object, modify, ret.
    eexists. eexists. split; [reflexivity|]. split; [reflexivity|].
    unfold File.size, len. rewrite length_firstn, length_skipn. lia.
Qed.

End ReadAtCursor.

Lemma read_clamps_from_cursor_witness :
  Message.read (Some 3) (Message.seek 2 Message.SEEK_SET Scenario.blob4)
    = (["c"; "d"]%byte, Scenario.blob4) /\
  exists fs2, Scenario.read "/f" 3 1 Scenario.session = (Ok (RStr ["i"%byte]), fs2).
Proof.
  destruct (read_clamps_from_cursor
              (server := Mailbox.server) (env := Mailbox.surroundings)
              (Message.seek 2 Message.SEEK_SET Scenario.blob4) 3 1 "/f" Scenario.session
              (snd (Scenario.get_node_by_path "/f" Scenario.session)) 1
              (File.mk (Message.init Scenario.FILE_NAME Scenario.file_blob)))
    as [Hblob [_ [buf [fs2 [Hread [Hbuf _]]]]]].
  - lia.
  - lia.
  - vm_compute. reflexivity.
  - vm_compute. reflexivity.
  - split.
    + destruct Hblob as [_ [Hsized _]]; [cbn; lia | exact Hsized].
    + exists fs2. unfold Scenario.read. rewrite Hread, Hbuf. reflexivity.
Defined.
